(** * Chunk reconstruction and re-publication: a shallow embedding

    The development follows [fetch-arweave-chunks.mjs] (peer normalisation,
    offset lookup, chunk fetch, stream assembly) and [reupload.mjs] (the
    chunk uploader with its retry loop).  Both scripts are sequential
    [async] code: every [await] is a call into the outside world, which is
    modelled by an oracle indexed by a request counter. *)

From Stdlib Require Import Strings.String Strings.Ascii Strings.Byte.
From Stdlib Require Import ZArith NArith List Bool Lia Sorted.
Import ListNotations.

(** ** JavaScript strings

    A JavaScript string is a sequence of UTF-16 code units. *)

Definition jsstring := list N.

Definition lit (s : string) : jsstring :=
  map N_of_ascii (list_ascii_of_string s).

Definition jsstring_eqb (a b : jsstring) : bool :=
  if list_eq_dec N.eq_dec a b then true else false.

(** [WhiteSpace] and [LineTerminator] code points, the set that
    [String.prototype.trim] and [StringToBigInt] strip. *)
Definition isWhiteSpace (c : N) : bool :=
  existsb (N.eqb c)
    [9; 10; 11; 12; 13; 32; 160; 5760;
     8192; 8193; 8194; 8195; 8196; 8197; 8198; 8199; 8200; 8201; 8202;
     8232; 8233; 8239; 8287; 12288; 65279]%N.

Fixpoint trimStart (s : jsstring) : jsstring :=
  match s with
  | [] => []
  | c :: r => if isWhiteSpace c then trimStart r else s
  end.

Definition trimEnd (s : jsstring) : jsstring := rev (trimStart (rev s)).

Definition trim (s : jsstring) : jsstring := trimEnd (trimStart s).

(** Case-insensitive match of one pattern character under the [i] flag
    (no [u] flag): the pattern letters used here are ASCII, and a code unit
    above 127 is never folded onto an ASCII one. *)
Definition ci_eqb (pat c : N) : bool :=
  (c =? pat)%N
  || ((97 <=? pat)%N && (pat <=? 122)%N && (c =? pat - 32)%N)
  || ((65 <=? pat)%N && (pat <=? 90)%N && (c =? pat + 32)%N).

Fixpoint ci_prefix (pat s : jsstring) : bool :=
  match pat, s with
  | [], _ => true
  | _ :: _, [] => false
  | p :: pat', c :: s' => ci_eqb p c && ci_prefix pat' s'
  end.

(** [/^https?:\/\//i.test(url)] *)
Definition hasScheme (url : jsstring) : bool :=
  ci_prefix (lit "http://") url || ci_prefix (lit "https://") url.

Definition slash : N := 47%N.

(** [url.replace(/\/$/, '')]: without the [m] flag [$] is the end of the
    input, so at most the last code unit goes. *)
Fixpoint dropTrailingSlash (url : jsstring) : jsstring :=
  match url with
  | [] => []
  | [c] => if (c =? slash)%N then [] else [c]
  | c :: r => c :: dropTrailingSlash r
  end.

(** [normalisePeer]; [None] is JavaScript's [null]. *)
Definition normalisePeer (p : jsstring) : option jsstring :=
  let url := trim p in
  match url with
  | [] => None
  | _ :: _ =>
      let url := if hasScheme url then url else lit "http://" ++ url in
      let url := dropTrailingSlash url in
      Some url
  end.

(** ** BigInt conversion *)

Inductive JsonValue : Type :=
| JUndefined                      (* the field is absent *)
| JNull
| JBool (b : bool)
| JNumber (z : Z)                 (* a number whose value is the integer z *)
| JNonInteger                     (* any other number *)
| JString (s : jsstring)
| JObject (prim : jsstring).      (* object or array, with its [toString] *)

#[warnings="-register-all"]
Inductive JsError : Type :=
| TransportError (msg : jsstring)       (* axios rejected *)
| TypeError
| RangeError
| SyntaxError
| MalformedResponse (peer : jsstring)
| ChunkMissing
| OffsetLookupFailed (causes : list JsError)
| AllPeersFailed (absPos : Z) (causes : list JsError)
| Incomplete (expected assembled : Z).

Definition digitValue (c : N) : option N :=
  if ((48 <=? c) && (c <=? 57))%N then Some (c - 48)%N
  else if ((97 <=? c) && (c <=? 102))%N then Some (c - 87)%N
  else if ((65 <=? c) && (c <=? 70))%N then Some (c - 55)%N
  else None.

Fixpoint parseDigits (radix acc : N) (s : jsstring) : option N :=
  match s with
  | [] => Some acc
  | c :: r =>
      match digitValue c with
      | Some d => if (d <? radix)%N then parseDigits radix (acc * radix + d) r
                  else None
      | None => None
      end
  end.

Definition parseDigits1 (radix : N) (s : jsstring) : option Z :=
  match s with
  | [] => None
  | _ :: _ => option_map Z.of_N (parseDigits radix 0 s)
  end.

(** [StringToBigInt]: trimmed; empty is [0n]; a signed decimal literal or an
    unsigned [0x], [0o], [0b] literal. *)
Definition StringToBigInt (s : jsstring) : option Z :=
  match trim s with
  | [] => Some 0%Z
  | c0 :: r0 =>
      if (c0 =? 43)%N then parseDigits1 10 r0
      else if (c0 =? 45)%N then option_map Z.opp (parseDigits1 10 r0)
      else
        match r0 with
        | c1 :: r1 =>
            if ((c0 =? 48) && ((c1 =? 120) || (c1 =? 88)))%N then parseDigits1 16 r1
            else if ((c0 =? 48) && ((c1 =? 111) || (c1 =? 79)))%N then parseDigits1 8 r1
            else if ((c0 =? 48) && ((c1 =? 98) || (c1 =? 66)))%N then parseDigits1 2 r1
            else parseDigits1 10 (c0 :: r0)
        | [] => parseDigits1 10 (c0 :: r0)
        end
  end.

(** [BigInt(v)] *)
Definition BigInt (v : JsonValue) : JsError + Z :=
  match v with
  | JUndefined | JNull => inl TypeError
  | JBool b => inr (if b then 1 else 0)%Z
  | JNumber z => inr z
  | JNonInteger => inl RangeError
  | JString s | JObject s =>
      match StringToBigInt s with
      | Some z => inr z
      | None => inl SyntaxError
      end
  end.

(** ** The outside world

    Every [axios.get] is answered by an oracle that sees the number of the
    request (so a peer may answer the same question differently over time),
    the peer and what is asked.  The [timeout] and [verbose] options only
    reach [axios] and the console and are left out. *)

Definition Buffer := list byte.

(** The parsed response body.  A truthy body that is not an object has no
    [offset], [size] or [chunk] and behaves as [Obj] with the three fields
    [JUndefined]. *)
Inductive Body : Type :=
| Falsy
| Obj (offset size chunk : JsonValue).

Inductive AxiosResult : Type :=
| Rejected (msg : jsstring)
| Resolved (data : Body).

Record World : Type := {
  Buffer_from_base64 : jsstring -> Buffer;        (* [Buffer.from(s, 'base64')] *)
  path_resolve : jsstring -> jsstring;            (* [path.resolve] *)
  get_offset : nat -> jsstring -> jsstring -> AxiosResult;  (* GET peer/tx/txid/offset *)
  get_chunk : nat -> jsstring -> Z -> AxiosResult           (* GET peer/chunk/absPos *)
}.

Inductive Completion (A : Type) : Type :=
| Return (a : A)
| Throw (e : JsError).
Arguments Return {A} a.
Arguments Throw {A} e.

Record OffsetInfo : Type := {
  peer : jsstring;
  offset : Z;
  size : Z
}.

Record Window : Type := {
  buf : Buffer;
  start : Z;
  end_ : Z
}.

Definition len (b : Buffer) : Z := Z.of_nat (length b).

Definition defined (v : JsonValue) : bool :=
  match v with JUndefined => false | _ => true end.

Definition BUILTIN_PEERS : list jsstring :=
  map lit ["https://arweave.net"; "http://38.29.227.39:1984";
           "http://38.29.227.41:1984"; "http://165.254.143.21:1984"]%string.

(** The peer list written out in [fetchArweaveChunks]. *)
Definition peers_const : list jsstring :=
  map lit ["38.29.227.39:1984"; "38.29.227.41:1984"; "38.29.227.85:1984";
           "165.254.143.21:1984"; "168.119.211.20:1984"; "38.29.227.87:1984";
           "38.29.227.43:1984"; "38.29.227.89:1984"; "49.12.135.160:1984";
           "108.238.244.144:2012"; "38.29.227.93:1984"; "165.254.143.17:1984";
           "165.254.143.25:1984"; "112.120.10.191:1986"; "165.254.143.31:1984";
           "38.29.227.91:1984"; "165.254.143.27:1984"; "165.254.143.23:1984";
           "38.29.227.95:1984"; "112.120.10.191:1984"; "47.205.134.63:1985";
           "74.82.0.180:1995"; "165.254.143.33:1984"; "165.254.143.29:1984";
           "138.201.218.229:1984"; "112.120.10.191:1985"; "168.119.211.60:1984";
           "165.254.143.19:1984"; "154.201.1.130:11099"; "74.82.0.180:1986";
           "3.34.96.164:1984"; "74.82.0.180:1988"]%string.

(** [Array.from(new Set(l))]: first occurrences, in insertion order. *)
Fixpoint dedupe (seen l : list jsstring) : list jsstring :=
  match l with
  | [] => []
  | x :: r =>
      if existsb (jsstring_eqb x) seen then dedupe seen r
      else x :: dedupe (x :: seen) r
  end.

(** [l.map(normalisePeer).filter(Boolean)]; a normalised peer is never the
    empty string, so [filter(Boolean)] drops exactly the [null]s. *)
Fixpoint normaliseAll (l : list jsstring) : list jsstring :=
  match l with
  | [] => []
  | p :: r =>
      match normalisePeer p with
      | Some u => u :: normaliseAll r
      | None => normaliseAll r
      end
  end.

(** One usable slice of the assembly loop, kept beside [buffers] so that
    statements can speak of the absolute range each slice stands for. *)
Record Iter : Type := {
  it_nextPos : Z;        (* the position requested *)
  it_window : Window;    (* what [fetchChunk] returned *)
  it_usable : Buffer     (* the slice pushed onto [buffers] *)
}.

Record LoopState : Type := {
  buffers : list Buffer;
  bytesAccum : Z;
  nextPos : Z;
  chunkCount : nat;
  clock : nat;           (* requests made so far *)
  history : list Iter    (* ghost: one entry per element of [buffers] *)
}.

Record Opts : Type := {
  txid : jsstring;
  outfile : option jsstring;
  peers : option (list jsstring)
}.

Record FetchResult : Type := {
  res_outfile : jsstring;
  res_bytes : Z
}.

Section Fetch.

Variable W : World.

(** [base64UrlToBuffer] *)
Definition base64UrlToBuffer (b64url : jsstring) : Buffer :=
  let b64 := map (fun c => if (c =? 45)%N then 43%N else c) b64url in
  let b64 := map (fun c => if (c =? 95)%N then 47%N else c) b64 in
  let pad := (length b64 mod 4)%nat in
  let b64 :=
    if (pad =? 2)%nat then b64 ++ lit "=="
    else if (pad =? 3)%nat then b64 ++ lit "="
    else if negb (pad =? 0)%nat then b64 ++ lit "==="
    else b64 in
  Buffer_from_base64 W b64.

(** The [try] block of [fetchTxOffset] for one peer: the value returned, or
    the error that the [catch] pushes onto [errors]. *)
Definition tryTxOffset (txid p : jsstring) (clk : nat) : JsError + OffsetInfo :=
  match get_offset W clk p txid with
  | Rejected msg => inl (TransportError msg)
  | Resolved Falsy => inl (MalformedResponse p)
  | Resolved (Obj joffset jsize _) =>
      if defined joffset && defined jsize then
        match BigInt joffset with
        | inl err => inl err
        | inr o =>
            match BigInt jsize with
            | inl err => inl err
            | inr s => inr {| peer := p; offset := o; size := s |}
            end
        end
      else inl (MalformedResponse p)
  end.

(** [fetchTxOffset]: the [for ... of] loop over [peers], with the [errors]
    array and the request counter. *)
Fixpoint fetchTxOffset_loop (txid : jsstring) (peers : list jsstring)
    (errors : list JsError) (clk : nat) : Completion OffsetInfo * nat :=
  match peers with
  | [] => (Throw (OffsetLookupFailed errors), clk)
  | p :: rest =>
      match tryTxOffset txid p clk with
      | inr r => (Return r, S clk)
      | inl err => fetchTxOffset_loop txid rest (errors ++ [err]) (S clk)
      end
  end.

Definition fetchTxOffset (txid : jsstring) (peers : list jsstring) (clk : nat)
    : Completion OffsetInfo * nat :=
  fetchTxOffset_loop txid peers [] clk.

(** [fetchChunkFromPeer] *)
Definition fetchChunkFromPeer (p : jsstring) (absPos : Z) (clk : nat)
    : Completion Window :=
  match get_chunk W clk p absPos with
  | Rejected msg => Throw (TransportError msg)
  | Resolved Falsy => Throw ChunkMissing
  | Resolved (Obj joffset _ (JString chunk)) =>
      let buf := base64UrlToBuffer chunk in
      let respEnd :=
        if defined joffset then BigInt joffset
        else inr (absPos + len buf - 1)%Z in
      match respEnd with
      | inl err => Throw err
      | inr respEnd =>
          let chunkStart := (respEnd - len buf + 1)%Z in
          Return {| buf := buf; start := chunkStart; end_ := respEnd |}
      end
  | Resolved (Obj _ _ _) => Throw ChunkMissing
  end.

(** [fetchChunk] *)
Fixpoint fetchChunk_loop (peers : list jsstring) (absPos : Z)
    (errors : list JsError) (clk : nat) : Completion Window * nat :=
  match peers with
  | [] => (Throw (AllPeersFailed absPos errors), clk)
  | p :: rest =>
      match fetchChunkFromPeer p absPos clk with
      | Return w => (Return w, S clk)
      | Throw err => fetchChunk_loop rest absPos (errors ++ [err]) (S clk)
      end
  end.

Definition fetchChunk (peers : list jsstring) (absPos : Z) (clk : nat)
    : Completion Window * nat :=
  fetchChunk_loop peers absPos [] clk.

(** The slice arithmetic of the loop body.  [Number(x)] of a BigInt is exact
    below 2^53 and at least 2^53 above, and a Buffer is shorter than 2^53
    bytes, so [slice] and the comparison with [usable.length] see the same
    thing as with the exact integer. *)
Definition sliceStart (start nextPos : Z) : Z :=
  if (start <? nextPos)%Z then (nextPos - start)%Z else 0%Z.

Definition usableSlice (size bytesAccum nextPos : Z) (w : Window) : Buffer :=
  let usable := skipn (Z.to_nat (sliceStart (start w) nextPos)) (buf w) in
  let remaining := (size - bytesAccum)%Z in
  if (len usable >? remaining)%Z then firstn (Z.to_nat remaining) usable
  else usable.

(** The [while (bytesAccum < size)] loop of [fetchArweaveChunks].  [None]
    stands for a loop that has not ended within [fuel] iterations. *)
Fixpoint assembleLoop (fuel : nat) (allPeers : list jsstring) (size : Z)
    (st : LoopState) : option (Completion LoopState) :=
  if (bytesAccum st <? size)%Z then
    match fuel with
    | O => None
    | S fuel' =>
        match fetchChunk allPeers (nextPos st) (clock st) with
        | (Throw err, _) => Some (Throw err)
        | (Return w, clk') =>
            let usable := usableSlice size (bytesAccum st) (nextPos st) w in
            let buffers' := buffers st ++ [usable] in
            let bytesAccum' := (bytesAccum st + len usable)%Z in
            let chunkCount' := S (chunkCount st) in
            let history' :=
              history st ++ [{| it_nextPos := nextPos st; it_window := w;
                                it_usable := usable |}] in
            if (bytesAccum' >=? size)%Z then
              Some (Return {| buffers := buffers'; bytesAccum := bytesAccum';
                              nextPos := nextPos st; chunkCount := chunkCount';
                              clock := clk'; history := history' |})
            else
              assembleLoop fuel' allPeers size
                {| buffers := buffers'; bytesAccum := bytesAccum';
                   nextPos := (start w + len (buf w))%Z;
                   chunkCount := chunkCount';
                   clock := clk'; history := history' |}
        end
    end
  else Some (Return st).

Definition startOffset (r : OffsetInfo) : Z := (offset r - size r + 1)%Z.

Definition initLoop (r : OffsetInfo) (clk : nat) : LoopState :=
  {| buffers := []; bytesAccum := 0; nextPos := startOffset r;
     chunkCount := 0; clock := clk; history := [] |}.

(** Lines 434-444: concatenate, compare with [size], write. The second
    component is the list of [fs.writeFileSync] calls. *)
Definition finishAssembly (outfile : jsstring) (size : Z) (buffers : list Buffer)
    : Completion FetchResult * list (jsstring * Buffer) :=
  let outBuf := concat buffers in
  if negb (len outBuf =? size)%Z then (Throw (Incomplete size (len outBuf)), [])
  else (Return {| res_outfile := path_resolve W outfile; res_bytes := len outBuf |},
        [(outfile, outBuf)]).

Definition allPeersOf (opts : Opts) : list jsstring :=
  let seed := BUILTIN_PEERS ++ match peers opts with Some l => l | None => [] end in
  dedupe [] (normaliseAll (seed ++ peers_const)).

Definition outfileOf (opts : Opts) : jsstring :=
  match outfile opts with
  | Some (c :: r) => c :: r
  | _ => txid opts ++ lit ".bin"
  end.

(** [fetchArweaveChunks] *)
Definition fetchArweaveChunks (fuel : nat) (opts : Opts)
    : option (Completion FetchResult * list (jsstring * Buffer)) :=
  let outfile := outfileOf opts in
  let allPeers := allPeersOf opts in
  match fetchTxOffset (txid opts) allPeers 0 with
  | (Throw err, _) => Some (Throw err, [])
  | (Return r, clk) =>
      match assembleLoop fuel allPeers (size r) (initLoop r clk) with
      | None => None
      | Some (Throw err) => Some (Throw err, [])
      | Some (Return st) => Some (finishAssembly outfile (size r) (buffers st))
      end
  end.

End Fetch.

(** ** The uploader ([reuploadChunks])

    What one pass through the [try] block meets: [tx.getChunk] and
    [validatePath] belong to the arweave library and the POST to the
    network, so each pass is answered by an oracle that is asked with the
    chunk index and the number of failed passes so far. *)

Inductive PostResult : Type :=
| PostResponse (status : Z)        (* the promise resolved with [resp.status] *)
| PostRejected (msg : jsstring).   (* the promise rejected *)

Inductive Attempt : Type :=
| BuildThrows                      (* [getChunk] or [validatePath] throws *)
| ValidationFails                  (* [validatePath] resolves to false *)
| Posts (r : PostResult).          (* validated; the chunk is POSTed *)

Record UploadEnv : Type := {
  existsSync : bool;               (* is the [.bin] file there *)
  totalChunks : option nat;        (* [None]: the transaction lookup throws *)
  attemptOutcome : nat -> nat -> Attempt
}.

(** The errors thrown inside the [try] block. *)
Inductive ChunkError : Type :=
| BuildError
| UnableToValidate (i : nat)
| UploadFailed (i : nat) (status : Z).

Inductive Event : Type :=
| LogUploading (total : nat)
| Post (i : nat)
| LogNetworkError (i : nat) (msg : jsstring)
| LogUploaded (k total : nat) (status : Z)          (* "Chunk k/total uploaded" *)
| LogRetry (attempt i delay : nat) (err : ChunkError)
| Sleep (delay : nat)
| LogGivingUp (i : nat) (err : ChunkError)
| LogAllUploaded (total : nat)
| LogOnlyUploaded (successCount total : nat) (failedChunks : list nat).

Inductive UploadError : Type :=
| FileNotFound
| TransactionLookupFailed
| FailedToUploadAll.

Inductive UploadResult : Type :=
| UploadReturn
| UploadThrow (e : UploadError).

Record UploadState : Type := {
  successCount : nat;
  failedChunks : list nat;
  trace : list Event
}.

Definition MAX_RETRIES_PER_CHUNK : nat := 5.
Definition RETRY_DELAY_MS_BASE : nat := 750.

Section Upload.

Variable E : UploadEnv.

(** The [try] block for chunk [i] on pass [attempt]: the events it emits,
    and the status it breaks with or the error it throws. *)
Definition tryChunk (i attempt : nat) : list Event * (ChunkError + Z) :=
  match attemptOutcome E i attempt with
  | BuildThrows => ([], inl BuildError)
  | ValidationFails => ([], inl (UnableToValidate i))
  | Posts r =>
      let '(evs, status) :=
        match r with
        | PostResponse status => ([Post i], status)
        | PostRejected msg => ([Post i; LogNetworkError i msg], (-1)%Z)
        end in
      if ((status =? 200) || (status =? 208))%Z then (evs, inr status)
      else (evs, inl (UploadFailed i status))
  end.

(** The [while (true)] loop for chunk [i]. *)
Fixpoint uploadChunk (fuel : nat) (total i attempt : nat) (st : UploadState)
    : option UploadState :=
  match fuel with
  | O => None
  | S fuel' =>
      match tryChunk i attempt with
      | (evs, inr status) =>
          Some {| successCount := S (successCount st);
                  failedChunks := failedChunks st;
                  trace := trace st ++ evs ++ [LogUploaded (i + 1) total status] |}
      | (evs, inl err) =>
          let attempt := attempt + 1 in
          if MAX_RETRIES_PER_CHUNK <? attempt then
            Some {| successCount := successCount st;
                    failedChunks := failedChunks st ++ [i + 1];
                    trace := trace st ++ evs ++ [LogGivingUp i err] |}
          else
            let delay := RETRY_DELAY_MS_BASE * attempt in
            uploadChunk fuel' total i attempt
              {| successCount := successCount st;
                 failedChunks := failedChunks st;
                 trace := trace st ++ evs ++ [LogRetry attempt i delay err; Sleep delay] |}
      end
  end.

(** The [for (let i = 0; i < totalChunks; i++)] loop, over the indices
    still to visit. *)
Fixpoint forChunks (fuel : nat) (total : nat) (indices : list nat)
    (st : UploadState) : option UploadState :=
  match indices with
  | [] => Some st
  | i :: rest =>
      match uploadChunk fuel total i 0 st with
      | None => None
      | Some st' => forChunks fuel total rest st'
      end
  end.

(** [reuploadChunks]; [fuel] bounds the passes of each [while (true)]. *)
Definition reuploadChunks (fuel : nat) : option (UploadResult * list Event) :=
  if negb (existsSync E) then Some (UploadThrow FileNotFound, [])
  else
    match totalChunks E with
    | None => Some (UploadThrow TransactionLookupFailed, [])
    | Some total =>
        let st0 := {| successCount := 0; failedChunks := [];
                      trace := [LogUploading total] |} in
        match forChunks fuel total (seq 0 total) st0 with
        | None => None
        | Some st =>
            if successCount st =? total then
              Some (UploadReturn, trace st ++ [LogAllUploaded total])
            else
              Some (UploadThrow FailedToUploadAll,
                    trace st ++ [LogOnlyUploaded (successCount st) total
                                                 (failedChunks st)])
        end
    end.

End Upload.

(** ** Command line ([parseArgs] of [fetch-arweave-chunks.mjs]) *)

Fixpoint takeDigits (s : jsstring) : jsstring :=
  match s with
  | [] => []
  | c :: r => if ((48 <=? c) && (c <=? 57))%N then c :: takeDigits r else []
  end.

(** [parseInt(s, 10)]: leading white space, a sign, then the longest run of
    decimal digits; [None] is [NaN].  The integer is the one the digits
    spell; JavaScript rounds it to a double, which is zero only when the
    integer is. *)
Definition parseInt10 (s : jsstring) : option Z :=
  let t := trimStart s in
  let '(negative, t) :=
    match t with
    | c :: r => if (c =? 45)%N then (true, r)
                else if (c =? 43)%N then (false, r) else (false, t)
    | [] => (false, t)
    end in
  match takeDigits t with
  | [] => None
  | ds => match parseDigits 10 0 ds with
          | Some n => Some (if negative then (- Z.of_N n)%Z else Z.of_N n)
          | None => None
          end
  end.

(** [parseInt(v, 10) || current] *)
Definition parseIntOr (v : jsstring) (current : Z) : Z :=
  match parseInt10 v with
  | Some z => if (z =? 0)%Z then current else z
  | None => current
  end.

(** [s.split(',')] *)
Fixpoint splitComma (s : jsstring) : list jsstring :=
  match s with
  | [] => [[]]
  | c :: r =>
      if (c =? 44)%N then [] :: splitComma r
      else match splitComma r with
           | h :: t => (c :: h) :: t
           | [] => [[c]]
           end
  end.

Definition nonEmpty (s : jsstring) : bool :=
  match s with [] => false | _ :: _ => true end.

(** [list.split(',').map((s) => s.trim()).filter(Boolean)] *)
Definition peersOfList (value : jsstring) : list jsstring :=
  filter nonEmpty (map trim (splitComma value)).

Record ArgState : Type := {
  arg_peers : list jsstring;
  arg_maxPeers : Z;
  arg_timeout : Z;
  arg_verbose : bool;
  positionals : list jsstring
}.

Record CliOpts : Type := {
  cli_peers : list jsstring;
  cli_maxPeers : Z;
  cli_timeout : Z;
  cli_verbose : bool;
  cli_txid : jsstring;
  cli_outfile : jsstring
}.

Inductive ParseResult : Type :=
| ShowHelp                       (* [{ help: true }] *)
| Parsed (o : CliOpts)
| PeersRequiresValue.            (* the error thrown for [--peers] *)

(** The [for] loop over [args]; [None] is the throw.  An option that takes
    a value consumes the next argument, whatever it is. *)
Fixpoint parseLoop (args : list jsstring) (st : ArgState) : option ArgState :=
  match args with
  | [] => Some st
  | a :: rest =>
      if jsstring_eqb a (lit "--peers") then
        match rest with
        | [] => None
        | [] :: _ => None
        | (c :: l) :: rest' =>
            parseLoop rest'
              {| arg_peers := arg_peers st ++ peersOfList (c :: l);
                 arg_maxPeers := arg_maxPeers st;
                 arg_timeout := arg_timeout st;
                 arg_verbose := arg_verbose st;
                 positionals := positionals st |}
        end
      else if jsstring_eqb a (lit "--maxPeers") then
        match rest with
        | [] => Some st
        | v :: rest' =>
            parseLoop rest'
              {| arg_peers := arg_peers st;
                 arg_maxPeers := parseIntOr v (arg_maxPeers st);
                 arg_timeout := arg_timeout st;
                 arg_verbose := arg_verbose st;
                 positionals := positionals st |}
        end
      else if jsstring_eqb a (lit "--timeout") then
        match rest with
        | [] => Some st
        | v :: rest' =>
            parseLoop rest'
              {| arg_peers := arg_peers st;
                 arg_maxPeers := arg_maxPeers st;
                 arg_timeout := parseIntOr v (arg_timeout st);
                 arg_verbose := arg_verbose st;
                 positionals := positionals st |}
        end
      else if jsstring_eqb a (lit "--verbose") || jsstring_eqb a (lit "-v") then
        parseLoop rest
          {| arg_peers := arg_peers st;
             arg_maxPeers := arg_maxPeers st;
             arg_timeout := arg_timeout st;
             arg_verbose := true;
             positionals := positionals st |}
      else
        parseLoop rest
          {| arg_peers := arg_peers st;
             arg_maxPeers := arg_maxPeers st;
             arg_timeout := arg_timeout st;
             arg_verbose := arg_verbose st;
             positionals := positionals st ++ [a] |}
  end.

(** [parseArgs(argv)] *)
Definition parseArgs (argv : list jsstring) : ParseResult :=
  let args := skipn 2 argv in
  if match args with [] => true | _ :: _ => false end
     || existsb (jsstring_eqb (lit "-h")) args
     || existsb (jsstring_eqb (lit "--help")) args
  then ShowHelp
  else
    match parseLoop args {| arg_peers := []; arg_maxPeers := 500;
                            arg_timeout := 15000; arg_verbose := false;
                            positionals := [] |} with
    | None => PeersRequiresValue
    | Some st =>
        match positionals st with
        | [] => ShowHelp
        | txid :: more =>
            Parsed {| cli_peers := arg_peers st;
                      cli_maxPeers := arg_maxPeers st;
                      cli_timeout := arg_timeout st;
                      cli_verbose := arg_verbose st;
                      cli_txid := txid;
                      cli_outfile :=
                        match more with
                        | (c :: o) :: _ => c :: o
                        | _ => txid ++ lit ".bin"
                        end |}
        end
    end.

(** ** Peer discovery ([discoverPeers])

    The answer of a peer to [GET /peers]: the request fails (or the body
    cannot be iterated), or the body is an array; an element that is not a
    string is [None], and [normalisePeer] throws on it. *)

Inductive PeersReply : Type :=
| PeersRejected
| PeersArray (cands : list (option jsstring)).

(** [l.slice(0, e)] *)
Definition sliceTo (l : list jsstring) (e : Z) : list jsstring :=
  let n := Z.of_nat (length l) in
  let k := if (e <? 0)%Z then Z.max (n + e) 0 else Z.min e n in
  firstn (Z.to_nat k) l.

Section Discover.

Variable get_peers : nat -> jsstring -> PeersReply.
Variable maxPeers : Z.

(** The [for (const cand of arr)] loop inside the [try]: the queue after
    it.  A throw leaves the loop with what has been pushed so far. *)
Fixpoint pushCandidates (visited queue : list jsstring) (outLength : nat)
    (cands : list (option jsstring)) : list jsstring :=
  match cands with
  | [] => queue
  | None :: _ => queue
  | Some cand :: more =>
      match normalisePeer cand with
      | Some c =>
          if negb (existsb (jsstring_eqb c) visited)
             && negb (existsb (jsstring_eqb c) queue)
             && (Z.of_nat (outLength + length queue) <? maxPeers)%Z
          then pushCandidates visited (queue ++ [c]) outLength more
          else pushCandidates visited queue outLength more
      | None => pushCandidates visited queue outLength more
      end
  end.

(** The [while (queue.length && out.length < maxPeers)] loop and the final
    [out.slice(0, maxPeers)]. *)
Fixpoint discoverLoop (fuel : nat) (visited queue out : list jsstring)
    (clk : nat) : option (list jsstring) :=
  match queue with
  | [] => Some (sliceTo out maxPeers)
  | p :: queue' =>
      if (Z.of_nat (length out) <? maxPeers)%Z then
        match fuel with
        | O => None
        | S fuel' =>
            match normalisePeer p with
            | None => discoverLoop fuel' visited queue' out clk
            | Some norm =>
                if existsb (jsstring_eqb norm) visited then
                  discoverLoop fuel' visited queue' out clk
                else
                  let visited' := norm :: visited in
                  let out' := out ++ [norm] in
                  match get_peers clk norm with
                  | PeersRejected =>
                      discoverLoop fuel' visited' queue' out' (S clk)
                  | PeersArray cands =>
                      discoverLoop fuel' visited'
                        (pushCandidates visited' queue' (length out') cands)
                        out' (S clk)
                  end
            end
        end
      else Some (sliceTo out maxPeers)
  end.

(** [discoverPeers] *)
Definition discoverPeers (fuel : nat) (seedPeers : list jsstring)
    : option (list jsstring) :=
  discoverLoop fuel [] seedPeers [] 0.

End Discover.

(** ** Bundle lookup ([checkTx] of [check-irys-bundle.mjs]) *)

Inductive HeadResult : Type :=
| HeadRejected
| HeadResolved (status : Z) (contentLength : option jsstring).

Record IrysStatus : Type := {
  irys_status : JsonValue;
  irys_bundleTxId : JsonValue;
  irys_seededTo : JsonValue
}.

(** [IrysResolved None] is a falsy body; a truthy body that is not an
    object behaves as one with the three fields [JUndefined]. *)
Inductive IrysResult : Type :=
| IrysRejected
| IrysResolved (data : option IrysStatus).

Record CheckEnv : Type := {
  head_arweave : jsstring -> HeadResult;       (* HEAD https://arweave.net/id *)
  get_irys_status : jsstring -> IrysResult     (* GET node1.irys.xyz/tx/id/status *)
}.

Inductive Source : Type := SrcArweave | SrcIrys | SrcNone.

Inductive CheckRequest : Type :=
| HeadArweave (id : jsstring)
| GetIrysStatus (id : jsstring).

Record CheckResult : Type := {
  tx_id : jsstring;
  bundle_id : JsonValue;
  seeds : JsonValue;
  source : Source
}.

(** JavaScript truthiness of a parsed JSON value. *)
Definition truthy (v : JsonValue) : bool :=
  match v with
  | JUndefined | JNull => false
  | JBool b => b
  | JNumber z => negb (z =? 0)%Z
  | JNonInteger => true
  | JString s => nonEmpty s
  | JObject _ => true
  end.

Section Check.

Variable C : CheckEnv.

(** [checkTxArweaveExists] *)
Definition checkTxArweaveExists (id : jsstring) : bool :=
  match head_arweave C id with
  | HeadRejected => false
  | HeadResolved status header =>
      let statusOk := ((200 <=? status) && (status <? 300))%Z in
      let contentLength :=
        parseInt10 match header with
                   | Some (c :: h) => c :: h
                   | _ => lit "0"
                   end in
      statusOk && match contentLength with
                  | Some n => (n >? 0)%Z
                  | None => false
                  end
  end.

(** [checkTxIrysBundle]; [None] is [null]. *)
Definition checkTxIrysBundle (id : jsstring) : option IrysStatus :=
  match get_irys_status C id with
  | IrysRejected => None
  | IrysResolved None => None
  | IrysResolved (Some data) =>
      match irys_status data with
      | JString s =>
          if jsstring_eqb s (lit "FINALIZED") && truthy (irys_bundleTxId data)
          then Some data else None
      | _ => None
      end
  end.

(** [checkTx], with the requests it makes. *)
Definition checkTx (id : jsstring) : CheckResult * list CheckRequest :=
  if checkTxArweaveExists id then
    ({| tx_id := id; bundle_id := JNull; seeds := JUndefined;
        source := SrcArweave |},
     [HeadArweave id])
  else
    match checkTxIrysBundle id with
    | Some irysBundle =>
        ({| tx_id := id; bundle_id := irys_bundleTxId irysBundle;
            seeds := irys_seededTo irysBundle; source := SrcIrys |},
         [HeadArweave id; GetIrysStatus id])
    | None =>
        ({| tx_id := id; bundle_id := JNull; seeds := JUndefined;
            source := SrcNone |},
         [HeadArweave id; GetIrysStatus id])
    end.

End Check.

(** ** Availability polling ([pollArweave])

    [arweave-fix-all.mjs] and [fix.mjs] differ in the default of
    [maxAttempts] (60 and 100) and in where the dot goes; the loop is the
    same.  The HEAD probe number [n] is answered by [probe n]: [None] when
    the promise rejects, the status otherwise. *)

Inductive PollEvent : Type :=
| Probe (attempt : nat)
| LogAvailable
| LogDot
| SetTimeout (interval : Z).

(** The closure [check], called again through [setTimeout]; [true] is
    [resolve(true)], [false] the rejection "Gave up". *)
Fixpoint pollCheck (fuel : nat) (probe : nat -> option Z)
    (interval maxAttempts : Z) (attempts : nat) (tr : list PollEvent)
    : option (bool * list PollEvent) :=
  match fuel with
  | O => None
  | S fuel' =>
      let attempts := S attempts in
      let tr := tr ++ [Probe attempts] in
      let available :=
        match probe attempts with
        | Some status => (status =? 200)%Z
        | None => false
        end in
      if available then Some (true, tr ++ [LogAvailable])
      else if (Z.of_nat attempts >=? maxAttempts)%Z then Some (false, tr)
      else pollCheck fuel' probe interval maxAttempts attempts
             (tr ++ [LogDot; SetTimeout interval])
  end.

Definition pollArweave (fuel : nat) (probe : nat -> option Z)
    (interval maxAttempts : Z) : option (bool * list PollEvent) :=
  pollCheck fuel probe interval maxAttempts 0 [].

(** ** The stand-alone uploader ([reupload.cjs])

    The script shares the [try] block with [reuploadChunks] but leaves the
    process, with code 1, as soon as one chunk has spent its retries. *)

Inductive ScriptEnd : Type :=
| ScriptCompleted       (* the two closing lines are logged *)
| ScriptExit1           (* [process.exit(1)] *)
| ScriptCrashed.        (* the transaction lookup rejects, unhandled *)

Section UploadScript.

Variable E : UploadEnv.

(** The [while (true)] loop of the script for chunk [i]; the flag tells
    whether the script goes on. *)
Fixpoint scriptChunk (fuel : nat) (total i attempt : nat) (tr : list Event)
    : option (list Event * bool) :=
  match fuel with
  | O => None
  | S fuel' =>
      match tryChunk E i attempt with
      | (evs, inr status) =>
          Some (tr ++ evs ++ [LogUploaded (i + 1) total status], true)
      | (evs, inl err) =>
          let attempt := attempt + 1 in
          if MAX_RETRIES_PER_CHUNK <? attempt then
            Some (tr ++ evs ++ [LogGivingUp i err], false)
          else
            let delay := RETRY_DELAY_MS_BASE * attempt in
            scriptChunk fuel' total i attempt
              (tr ++ evs ++ [LogRetry attempt i delay err; Sleep delay])
      end
  end.

Fixpoint scriptChunks (fuel : nat) (total : nat) (indices : list nat)
    (tr : list Event) : option (list Event * bool) :=
  match indices with
  | [] => Some (tr, true)
  | i :: rest =>
      match scriptChunk fuel total i 0 tr with
      | None => None
      | Some (tr', false) => Some (tr', false)
      | Some (tr', true) => scriptChunks fuel total rest tr'
      end
  end.

(** The script from the file check on (the usage check is on [argv]). *)
Definition reuploadScript (fuel : nat) : option (ScriptEnd * list Event) :=
  if negb (existsSync E) then Some (ScriptExit1, [])
  else
    match totalChunks E with
    | None => Some (ScriptCrashed, [])
    | Some total =>
        match scriptChunks fuel total (seq 0 total) [LogUploading total] with
        | None => None
        | Some (tr, true) => Some (ScriptCompleted, tr)
        | Some (tr, false) => Some (ScriptExit1, tr)
        end
    end.

End UploadScript.

(** ** Vocabulary of the statements *)

Definition lastUnit (s : jsstring) : option N :=
  match rev s with
  | [] => None
  | c :: _ => Some c
  end.

Definition endsWithSlash (s : jsstring) : bool :=
  match lastUnit s with
  | Some c => (c =? slash)%N
  | None => false
  end.

(** Non-empty, and the last code unit is neither a slash nor white space. *)
Definition wellEnded (s : jsstring) : bool :=
  match lastUnit s with
  | Some c => negb (c =? slash)%N && negb (isWhiteSpace c)
  | None => false
  end.

(** Does the body carry both an [offset] and a [size] field. *)
Definition hasBothFields (r : AxiosResult) : bool :=
  match r with
  | Resolved (Obj joffset jsize _) => defined joffset && defined jsize
  | _ => false
  end.

(** [AllFailed W txid peers clk es]: asked one after the other from request
    [clk] on, every peer of [peers] fails, with the errors [es] in order. *)
Inductive AllFailed (W : World) (txid : jsstring)
    : list jsstring -> nat -> list JsError -> Prop :=
| AllFailed_nil (clk : nat) : AllFailed W txid [] clk []
| AllFailed_cons (p : jsstring) (rest : list jsstring) (clk : nat)
    (e : JsError) (es : list JsError) :
    tryTxOffset W txid p clk = inl e ->
    AllFailed W txid rest (S clk) es ->
    AllFailed W txid (p :: rest) clk (e :: es).

(** The absolute range a usable slice stands for: it begins at the first
    byte of the window that is kept. *)
Definition it_from (it : Iter) : Z :=
  Z.max (start (it_window it)) (it_nextPos it).

Definition it_to (it : Iter) : Z := (it_from it + len (it_usable it))%Z.

(** Each range begins where the one before ended, the first one at [pos]:
    no gap and no overlap. *)
Fixpoint chained (pos : Z) (its : list Iter) : Prop :=
  match its with
  | [] => True
  | it :: rest => it_from it = pos /\ chained (it_to it) rest
  end.

Definition nonEmptySlice (it : Iter) : Prop := (0 < len (it_usable it))%Z.

(** The bytes of the network's address space, and the [n] bytes from
    position [from] on. *)
Fixpoint payloadSlice (P : Z -> byte) (from : Z) (n : nat) : Buffer :=
  match n with
  | O => []
  | S n' => P from :: payloadSlice P (from + 1) n'
  end.

Definition truthful (P : Z -> byte) (w : Window) : Prop :=
  buf w = payloadSlice P (start w) (length (buf w)).

Definition contains (w : Window) (pos : Z) : Prop :=
  (start w <= pos < start w + len (buf w))%Z.

(** The iterations [its] as the loop performs them from accumulated length
    [acc] and request position [pos]. *)
Fixpoint steps (size acc pos : Z) (its : list Iter) : Prop :=
  match its with
  | [] => True
  | it :: rest =>
      let w := it_window it in
      (acc < size)%Z /\
      it_nextPos it = pos /\
      it_usable it = firstn (Z.to_nat (size - acc))
                            (skipn (Z.to_nat (pos - start w)) (buf w)) /\
      (acc + len (it_usable it) <= size)%Z /\
      steps size (acc + len (it_usable it)) (start w + len (buf w)) rest
  end.

Definition fetched (W : World) (allPeers : list jsstring) (it : Iter) : Prop :=
  exists clk clk',
    fetchChunk W allPeers (it_nextPos it) clk = (Return (it_window it), clk').

Definition totalLen (its : list Iter) : Z := len (concat (map it_usable its)).

(** A pass succeeds when the POST is answered with status 200 or 208. *)
Definition isSuccess (a : Attempt) : bool :=
  match a with
  | Posts (PostResponse status) => ((status =? 200) || (status =? 208))%Z
  | _ => false
  end.

(** A chunk succeeds when one of its passes, the first one and the
    [MAX_RETRIES_PER_CHUNK] retries, succeeds. *)
Definition chunkSucceedsFrom (E : UploadEnv) (i attempt : nat) : bool :=
  existsb (fun a => isSuccess (attemptOutcome E i a))
          (seq attempt (S MAX_RETRIES_PER_CHUNK - attempt)).

Definition chunkSucceeds (E : UploadEnv) (i : nat) : bool :=
  chunkSucceedsFrom E i 0.

(** The delays slept, the retries announced and the chunks POSTed, in the
    order of the trace. *)
Definition sleeps (evs : list Event) : list nat :=
  flat_map (fun e => match e with Sleep d => [d] | _ => [] end) evs.

Definition retries (evs : list Event) : list nat :=
  flat_map (fun e => match e with LogRetry a _ _ _ => [a] | _ => [] end) evs.

Definition posts (evs : list Event) : list nat :=
  flat_map (fun e => match e with Post i => [i] | _ => [] end) evs.


(** ** Fixtures

    A reference decoder for well-formed base64 (any other code unit is
    skipped, [=] ends the input), and small worlds built on it. *)

Definition sextet (c : N) : option N :=
  if ((65 <=? c) && (c <=? 90))%N then Some (c - 65)%N
  else if ((97 <=? c) && (c <=? 122))%N then Some (c - 71)%N
  else if ((48 <=? c) && (c <=? 57))%N then Some (c + 4)%N
  else if (c =? 43)%N then Some 62%N
  else if (c =? 47)%N then Some 63%N
  else None.

Fixpoint sextets (s : jsstring) : list N :=
  match s with
  | [] => []
  | c :: r =>
      if (c =? 61)%N then []
      else match sextet c with
           | Some v => v :: sextets r
           | None => sextets r
           end
  end.

Definition byte_of_N (n : N) : byte :=
  match Byte.of_N (n mod 256) with
  | Some b => b
  | None => x00
  end.

Fixpoint bytesOfSextets (l : list N) : Buffer :=
  match l with
  | a :: b :: c :: d :: r =>
      byte_of_N (a * 4 + b / 16) :: byte_of_N (b * 16 + c / 4)
        :: byte_of_N (c * 64 + d) :: bytesOfSextets r
  | [a; b; c] => [byte_of_N (a * 4 + b / 16); byte_of_N (b * 16 + c / 4)]
  | [a; b] => [byte_of_N (a * 4 + b / 16)]
  | _ => []
  end%N.

Definition base64_decode (s : jsstring) : Buffer := bytesOfSextets (sextets s).

Definition mkWorld (off : nat -> jsstring -> jsstring -> AxiosResult)
    (chk : nat -> jsstring -> Z -> AxiosResult) : World :=
  {| Buffer_from_base64 := base64_decode;
     path_resolve := fun f => lit "/work/" ++ f;
     get_offset := off;
     get_chunk := chk |}.

Definition peerA : jsstring := lit "http://a:1984".
Definition peerB : jsstring := lit "http://b:1984".
Definition tx0 : jsstring := lit "SIaSQkaJ".

(** Every peer answers the offset lookup with [{offset: "999", size: "1000"}]. *)
Definition world999 : World :=
  mkWorld (fun _ _ _ => Resolved (Obj (JString (lit "999")) (JString (lit "1000")) JUndefined))
          (fun _ _ _ => Rejected (lit "ECONNREFUSED")).

(** [peerA] answers [{offset: "abc", size: "10"}], every other peer
    [{offset: "9", size: "10"}]. *)
Definition worldBadNumber : World :=
  mkWorld (fun _ p _ =>
             if jsstring_eqb p peerA
             then Resolved (Obj (JString (lit "abc")) (JString (lit "10")) JUndefined)
             else Resolved (Obj (JString (lit "9")) (JString (lit "10")) JUndefined))
          (fun _ _ _ => Rejected (lit "ECONNREFUSED")).

(** [peerA] is down, [peerB] answers [{size: "10"}] only. *)
Definition worldNoOffset : World :=
  mkWorld (fun _ p _ =>
             if jsstring_eqb p peerA then Rejected (lit "ETIMEDOUT")
             else Resolved (Obj JUndefined (JString (lit "10")) JUndefined))
          (fun _ _ _ => Rejected (lit "ECONNREFUSED")).

(** Every chunk request is answered by [{chunk: "AQID"}] (the bytes
    1, 2, 3) without an [offset]. *)
Definition worldPlainChunk : World :=
  mkWorld (fun _ _ _ => Resolved (Obj (JString (lit "9")) (JString (lit "10")) JUndefined))
          (fun _ _ _ => Resolved (Obj JUndefined JUndefined (JString (lit "AQID")))).

(** The lookup answers [{offset: "1", size: "2"}] (start 0); every chunk
    request is answered by [{chunk: "AQI", offset: "3"}], the two bytes at
    positions 2 and 3. *)
Definition worldMisplaced : World :=
  mkWorld (fun _ _ _ => Resolved (Obj (JString (lit "1")) (JString (lit "2")) JUndefined))
          (fun _ _ _ => Resolved (Obj (JString (lit "3")) JUndefined (JString (lit "AQI")))).

(** The lookup answers [{offset: "12", size: "3"}] (start 10); every chunk
    request is answered by [{chunk: "AQID", offset: "2"}], the three bytes
    at positions 0 to 2. *)
Definition worldStuck : World :=
  mkWorld (fun _ _ _ => Resolved (Obj (JString (lit "12")) (JString (lit "3")) JUndefined))
          (fun _ _ _ => Resolved (Obj (JString (lit "2")) JUndefined (JString (lit "AQID")))).

(** A payload cut into chunks of three bytes, all [0] in the even chunks
    and all [1] in the odd ones: the request for [pos] is answered by the
    chunk that holds it.  The lookup answers [{offset: "7", size: "7"}]
    (start 1). *)
Definition gridPayload (z : Z) : byte :=
  if ((z / 3) mod 2 =? 0)%Z then x00 else x01.

Definition worldGrid : World :=
  mkWorld (fun _ _ _ => Resolved (Obj (JString (lit "7")) (JString (lit "7")) JUndefined))
          (fun _ _ pos =>
             Resolved (Obj (JNumber (3 * (pos / 3) + 2)) JUndefined
                           (JString (if ((pos / 3) mod 2 =? 0)%Z
                                     then lit "AAAA" else lit "AQEB")))).

(** The lookup answers [{offset: "5", size: "-3"}]. *)
Definition worldNegative : World :=
  mkWorld (fun _ _ _ => Resolved (Obj (JString (lit "5")) (JString (lit "-3")) JUndefined))
          (fun _ _ _ => Rejected (lit "ECONNREFUSED")).

Definition opts0 : Opts := {| txid := tx0; outfile := None; peers := None |}.

(** Four chunks; every POST of chunk 2 is answered 500, every other POST
    200. *)
Definition envChunk2Fails : UploadEnv :=
  {| existsSync := true;
     totalChunks := Some 4;
     attemptOutcome := fun i _ =>
       if i =? 2 then Posts (PostResponse 500) else Posts (PostResponse 200) |}.

(** What [reuploadChunks] logs and does on [envChunk2Fails], up to the
    closing line. *)
Definition traceChunk2Fails : list Event :=
  [LogUploading 4; Post 0; LogUploaded 1 4 200;
   Post 1; LogUploaded 2 4 200;
   Post 2; LogRetry 1 2 750 (UploadFailed 2 500); Sleep 750;
   Post 2; LogRetry 2 2 1500 (UploadFailed 2 500); Sleep 1500;
   Post 2; LogRetry 3 2 2250 (UploadFailed 2 500); Sleep 2250;
   Post 2; LogRetry 4 2 3000 (UploadFailed 2 500); Sleep 3000;
   Post 2; LogRetry 5 2 3750 (UploadFailed 2 500); Sleep 3750;
   Post 2; LogGivingUp 2 (UploadFailed 2 500);
   Post 3; LogUploaded 4 4 200].

(** One chunk, whose proof never validates. *)
Definition envInvalid : UploadEnv :=
  {| existsSync := true;
     totalChunks := Some 1;
     attemptOutcome := fun _ _ => ValidationFails |}.

(** Two chunks: the first is refused twice (a dropped connection, then 503)
    and then reported as already present, the second never goes through. *)
Definition envFlaky : UploadEnv :=
  {| existsSync := true;
     totalChunks := Some 2;
     attemptOutcome := fun i a =>
       if i =? 0 then
         match a with
         | 0 => Posts (PostRejected (lit "ECONNRESET"))
         | 1 => Posts (PostResponse 503)
         | _ => Posts (PostResponse 208)
         end
       else Posts (PostResponse 429) |}.

(** ** Further vocabulary and fixtures *)

(** [ChunkAllFailed W absPos peers clk es]: asked for the chunk at [absPos]
    one after the other from request [clk] on, every peer of [peers] fails,
    with the errors [es] in order. *)
Inductive ChunkAllFailed (W : World) (absPos : Z)
    : list jsstring -> nat -> list JsError -> Prop :=
| ChunkAllFailed_nil (clk : nat) : ChunkAllFailed W absPos [] clk []
| ChunkAllFailed_cons (p : jsstring) (rest : list jsstring) (clk : nat)
    (e : JsError) (es : list JsError) :
    fetchChunkFromPeer W p absPos clk = Throw e ->
    ChunkAllFailed W absPos rest (S clk) es ->
    ChunkAllFailed W absPos (p :: rest) clk (e :: es).

(** The standard-alphabet image of a base64url code unit. *)
Definition standardUnit (c : N) : N :=
  if (c =? 45)%N then 43%N else if (c =? 95)%N then 47%N else c.

(** [peerA] is down and [peerB] has no chunk; any other peer answers
    [{chunk: "AQID", offset: "44"}]. *)
Definition worldFallback : World :=
  mkWorld (fun _ _ _ => Resolved (Obj (JString (lit "9")) (JString (lit "10")) JUndefined))
          (fun _ p _ =>
             if jsstring_eqb p peerA then Rejected (lit "ECONNREFUSED")
             else if jsstring_eqb p peerB then Resolved (Obj JUndefined JUndefined JNull)
             else Resolved (Obj (JString (lit "44")) JUndefined (JString (lit "AQID")))).

Definition peerC : jsstring := lit "http://c:1984".

(** An argument that [parseLoop] takes for an option. *)
Definition isFlag (a : jsstring) : bool :=
  existsb (jsstring_eqb a)
    (map lit ["--peers"; "--maxPeers"; "--timeout"; "--verbose"; "-v";
              "-h"; "--help"]%string).

(** An argument that the loop files under the positionals. *)
Definition notOption (a : jsstring) : Prop :=
  jsstring_eqb a (lit "--peers") = false /\
  jsstring_eqb a (lit "--maxPeers") = false /\
  jsstring_eqb a (lit "--timeout") = false /\
  (jsstring_eqb a (lit "--verbose") || jsstring_eqb a (lit "-v")) = false.

(** [node fetch.mjs --timeout 0 --peers " a:1984 ,,https://b/" TX --maxPeers 12x -v] *)
Definition argvExample : list jsstring :=
  map lit ["node"; "fetch.mjs"; "--timeout"; "0"; "--peers";
           " a:1984 ,,https://b/"; "TX"; "--maxPeers"; "12x"; "-v"]%string.

(** Every chunk is already there: each POST is answered 208. *)
Definition envAlreadyPresent : UploadEnv :=
  {| existsSync := true;
     totalChunks := Some 3;
     attemptOutcome := fun _ _ => Posts (PostResponse 208) |}.

(** The events of a poll that probes [n] times: a dot and a timer after
    each probe but the last. *)
Definition pollTrace (interval : Z) (first n : nat) (ok : bool)
    : list PollEvent :=
  flat_map (fun k => [Probe k; LogDot; SetTimeout interval])
           (seq first (n - first))
  ++ [Probe n] ++ (if ok then [LogAvailable] else []).

Definition available (probe : nat -> option Z) (k : nat) : Prop :=
  probe k = Some 200%Z.

(** The third probe is the first that is answered 200; the first is
    refused and the second answered 204. *)
Definition probeThird (k : nat) : option Z :=
  match k with
  | 1 => None
  | 2 => Some 204%Z
  | _ => Some 200%Z
  end.

Definition isGivingUp (e : Event) : bool :=
  match e with LogGivingUp _ _ => true | _ => false end.


(** * Peer normalisation *)

Lemma trimStart_suffix (s : jsstring) : exists pre, s = pre ++ trimStart s.
Proof.
  induction s as [|c r IH]; simpl.
  - exists []; reflexivity.
  - destruct (isWhiteSpace c).
    + destruct IH as [pre Hpre]. exists (c :: pre). simpl. now rewrite <- Hpre.
    + exists []; reflexivity.
Qed.

Lemma trimStart_head (s : jsstring) (c : N) (r : jsstring) :
  trimStart s = c :: r -> isWhiteSpace c = false.
Proof.
  induction s as [|a s IH]; simpl; [discriminate|].
  destruct (isWhiteSpace a) eqn:Ha; [exact IH|].
  intros H; injection H as -> _; exact Ha.
Qed.

Lemma trimStart_id (c : N) (r : jsstring) :
  isWhiteSpace c = false -> trimStart (c :: r) = c :: r.
Proof. intros H; simpl; now rewrite H. Qed.

Lemma trimEnd_id (s : jsstring) (c : N) :
  isWhiteSpace c = false -> trimEnd (s ++ [c]) = s ++ [c].
Proof.
  intros H. unfold trimEnd. rewrite rev_app_distr.
  change (rev [c] ++ rev s) with (c :: rev s).
  rewrite (trimStart_id _ _ H).
  change (rev (c :: rev s)) with (rev (rev s) ++ [c]).
  now rewrite rev_involutive.
Qed.

Lemma trimEnd_prefix (s : jsstring) : exists post, s = trimEnd s ++ post.
Proof.
  unfold trimEnd. destruct (trimStart_suffix (rev s)) as [pre Hpre].
  exists (rev pre).
  rewrite <- rev_app_distr, <- Hpre. now rewrite rev_involutive.
Qed.

Lemma trimEnd_last (s t : jsstring) (c : N) :
  trimEnd s = t ++ [c] -> isWhiteSpace c = false.
Proof.
  unfold trimEnd. intros H.
  assert (H' : trimStart (rev s) = c :: rev t).
  { rewrite <- (rev_involutive (trimStart (rev s))), H, rev_app_distr. reflexivity. }
  exact (trimStart_head _ _ _ H').
Qed.

(** What [trim] returns is empty or starts and ends with a code unit that is
    not white space. *)
Lemma trim_shape (p : jsstring) (a : N) (r : jsstring) :
  trim p = a :: r ->
  isWhiteSpace a = false /\
  exists t c, a :: r = t ++ [c] /\ isWhiteSpace c = false.
Proof.
  unfold trim. intros H. split.
  - destruct (trimEnd_prefix (trimStart p)) as [post Hpost].
    rewrite H in Hpost. simpl in Hpost.
    exact (trimStart_head _ _ _ Hpost).
  - destruct (exists_last (l := a :: r)) as [t [c Htc]]; [discriminate|].
    exists t, c. split; [exact Htc|].
    rewrite Htc in H. exact (trimEnd_last _ _ _ H).
Qed.

Lemma trim_fixed (a : N) (r t : jsstring) (c : N) :
  a :: r = t ++ [c] -> isWhiteSpace a = false -> isWhiteSpace c = false ->
  trim (a :: r) = a :: r.
Proof.
  intros Heq Ha Hc. unfold trim. rewrite (trimStart_id _ _ Ha), Heq.
  exact (trimEnd_id _ _ Hc).
Qed.

Lemma trim_nil_iff (p : jsstring) : trim p = [] <-> forallb isWhiteSpace p = true.
Proof.
  split.
  - intros H. unfold trim, trimEnd in H.
    assert (Hs : trimStart p = []).
    { destruct (trimStart p) as [|c r] eqn:Hp; [reflexivity|].
      exfalso.
      assert (Hr : trimStart (rev (c :: r)) = []).
      { rewrite <- (rev_involutive (trimStart _)), H. reflexivity. }
      destruct (exists_last (l := c :: r)) as [t [d Htd]]; [discriminate|].
      destruct (trimEnd_prefix (c :: r)) as [post Hpost].
      unfold trimEnd in Hpost. rewrite Hr in Hpost. simpl in Hpost.
      (* every unit of c :: r is white space, yet c is not *)
      pose proof (trimStart_head _ _ _ Hp) as Hc.
      clear - Hr Hc.
      assert (Hall : forall l, trimStart l = [] -> forallb isWhiteSpace l = true).
      { induction l as [|x l IH]; simpl; [reflexivity|].
        destruct (isWhiteSpace x); [exact IH | discriminate]. }
      apply Hall in Hr. rewrite forallb_forall in Hr.
      specialize (Hr c). rewrite Hc in Hr. 
      assert (In c (rev (c :: r))) by (rewrite <- in_rev; left; reflexivity).
      specialize (Hr H). discriminate. }
    clear H. induction p as [|x p IH]; simpl in *; [reflexivity|].
    destruct (isWhiteSpace x); [exact (IH Hs) | discriminate].
  - intros H. unfold trim, trimEnd.
    assert (Hs : forall l, forallb isWhiteSpace l = true -> trimStart l = []).
    { induction l as [|x l IH]; simpl; [reflexivity|].
      destruct (isWhiteSpace x); [exact IH | discriminate]. }
    rewrite (Hs _ H). reflexivity.
Qed.

Lemma lastUnit_snoc (s : jsstring) (c : N) : lastUnit (s ++ [c]) = Some c.
Proof. unfold lastUnit. now rewrite rev_app_distr. Qed.

Lemma dropTrailingSlash_snoc (s : jsstring) (c : N) :
  dropTrailingSlash (s ++ [c]) = if (c =? slash)%N then s else s ++ [c].
Proof.
  induction s as [|a s IH].
  - simpl. now destruct (c =? slash)%N.
  - change ((a :: s) ++ [c]) with (a :: (s ++ [c])).
    destruct (s ++ [c]) as [|b t] eqn:Hs.
    + destruct s; discriminate.
    + change (dropTrailingSlash (a :: b :: t)) with (a :: dropTrailingSlash (b :: t)).
      rewrite IH. now destruct (c =? slash)%N.
Qed.

Lemma ci_eqb_slash (c : N) : ci_eqb slash c = true -> c = slash.
Proof.
  unfold ci_eqb, slash. simpl. rewrite !orb_false_r.
  apply N.eqb_eq.
Qed.

(** A pattern that ends in two slashes and matches at the front of
    [s ++ [d; x]] already matches [s ++ [d]], unless [d] is its last slash. *)
Lemma ci_prefix_before_last (q s : jsstring) (d x : N) :
  d <> slash ->
  ci_prefix (q ++ [slash; slash]) (s ++ [d; x]) = true ->
  ci_prefix (q ++ [slash; slash]) (s ++ [d]) = true.
Proof.
  intros Hd. revert s. induction q as [|pc q IH]; intros s.
  - destruct s as [|a [|b s]]; simpl.
    + rewrite andb_true_iff. intros [H _]. now apply ci_eqb_slash in H.
    + rewrite !andb_true_iff. intros [_ [H _]]. now apply ci_eqb_slash in H.
    + rewrite !andb_true_iff. intros [Ha [Hb _]]. now rewrite Ha, Hb.
  - destruct s as [|a s].
    + intros H. exfalso.
      destruct q as [|pc' [|pc'' q]]; cbn [app ci_prefix] in H;
        rewrite !andb_false_r in H; discriminate.
    + cbn [app ci_prefix]. rewrite !andb_true_iff. intros [Ha H].
      split; [exact Ha|]. exact (IH s H).
Qed.

Lemma hasScheme_before_last (s : jsstring) (d x : N) :
  d <> slash -> hasScheme (s ++ [d; x]) = true -> hasScheme (s ++ [d]) = true.
Proof.
  intros Hd. unfold hasScheme. rewrite !orb_true_iff. intros [H | H].
  - left. exact (ci_prefix_before_last (lit "http:") s d x Hd H).
  - right. exact (ci_prefix_before_last (lit "https:") s d x Hd H).
Qed.

Lemma hasScheme_http (s : jsstring) : hasScheme (lit "http://" ++ s) = true.
Proof. reflexivity. Qed.

(** A string that starts and ends outside white space, carries a scheme and
    no trailing slash is left as it is. *)
Lemma normalisePeer_fixed (a : N) (r t : jsstring) (c : N) :
  a :: r = t ++ [c] ->
  isWhiteSpace a = false -> isWhiteSpace c = false -> c <> slash ->
  hasScheme (a :: r) = true ->
  normalisePeer (a :: r) = Some (a :: r).
Proof.
  intros Heq Ha Hc Hs Hsch. unfold normalisePeer.
  rewrite (trim_fixed a r t c Heq Ha Hc), Hsch, Heq, dropTrailingSlash_snoc.
  apply N.eqb_neq in Hs. now rewrite Hs.
Qed.

Lemma wellEnded_snoc (s : jsstring) (c : N) :
  wellEnded (s ++ [c]) = true -> c <> slash /\ isWhiteSpace c = false.
Proof.
  unfold wellEnded. rewrite lastUnit_snoc, andb_true_iff, !negb_true_iff.
  intros [H1 H2]. split; [now apply N.eqb_neq | exact H2].
Qed.

(** A normalised peer is never the empty string, so [filter(Boolean)]
    drops nothing but the [null]s. *)
Lemma normalisePeer_nonempty (p u : jsstring) :
  normalisePeer p = Some u -> u <> [].
Proof.
  unfold normalisePeer. destruct (trim p) as [|a r]; [discriminate|].
  destruct (hasScheme (a :: r)) eqn:Hsch.
  - destruct r as [|b r].
    + unfold hasScheme in Hsch. cbn [lit map list_ascii_of_string ci_prefix] in Hsch.
      rewrite !andb_false_r in Hsch. discriminate Hsch.
    + intros H. injection H as <-. discriminate.
  - intros H. injection H as <-. discriminate.
Qed.

Lemma normalisePeer_output (pre t : jsstring) (c : N) :
  hasScheme (pre ++ t ++ [c]) = true ->
  (forall h w, pre ++ t ++ [c] = h :: w -> isWhiteSpace h = false) ->
  wellEnded (if (c =? slash)%N then t else t ++ [c]) = true ->
  forall u, dropTrailingSlash (pre ++ t ++ [c]) = u ->
  hasScheme u = true /\ endsWithSlash u = false /\ normalisePeer u = Some u.
Proof.
  intros Hsch Hhead Hwell u Hu.
  rewrite app_assoc in Hu, Hsch, Hhead.
  rewrite dropTrailingSlash_snoc in Hu.
  destruct (c =? slash)%N eqn:Hcs.
  - (* one slash dropped: [t] itself must be well ended *)
    apply N.eqb_eq in Hcs. subst c.
    destruct (exists_last (l := t)) as [t' [d Ht']].
    { intros ->. discriminate Hwell. }
    subst t. apply wellEnded_snoc in Hwell. destruct Hwell as [Hd Hdw].
    rewrite app_assoc in Hu, Hsch, Hhead.
    rewrite <- app_assoc in Hsch. simpl app in Hsch at 2.
    apply (hasScheme_before_last (pre ++ t') d slash Hd) in Hsch.
    subst u.
    assert (Hne : exists h w, (pre ++ t') ++ [d] = h :: w).
    { destruct (pre ++ t') as [|h w]; simpl; eauto. }
    destruct Hne as [h [w Hhw]].
    assert (Hh : isWhiteSpace h = false).
    { apply (Hhead h (w ++ [slash])). rewrite Hhw. reflexivity. }
    split; [exact Hsch|]. split.
    + unfold endsWithSlash. rewrite lastUnit_snoc. now apply N.eqb_neq.
    + rewrite Hhw in *.
      exact (normalisePeer_fixed h w (pre ++ t') d (eq_sym Hhw) Hh Hdw Hd Hsch).
  - apply wellEnded_snoc in Hwell. destruct Hwell as [Hd Hdw].
    subst u.
    assert (Hne : exists h w, (pre ++ t) ++ [c] = h :: w).
    { destruct (pre ++ t) as [|h w]; simpl; eauto. }
    destruct Hne as [h [w Hhw]].
    assert (Hh : isWhiteSpace h = false) by exact (Hhead h w Hhw).
    split; [exact Hsch|]. split.
    + unfold endsWithSlash. rewrite lastUnit_snoc. exact Hcs.
    + rewrite Hhw in *.
      exact (normalisePeer_fixed h w (pre ++ t) c (eq_sym Hhw) Hh Hdw Hd Hsch).
Qed.

(** C10 (as amended).  [normalisePeer] returns [null] exactly when the
    trimmed input is empty; otherwise it returns the trimmed input, prefixed
    with [http://] when it carries no [http://] or [https://] scheme in any
    letter case, with one trailing slash removed.  When what is left of the
    trimmed input after that one slash is removed is non-empty and ends
    neither in a slash nor in white space, the result begins with the scheme,
    has no trailing slash and is a fixed point of the function. *)
Theorem normalisePeer_spec (p : jsstring) :
  (normalisePeer p = None <-> trim p = []) /\
  (forall u, normalisePeer p = Some u ->
     u = dropTrailingSlash
           (if hasScheme (trim p) then trim p else lit "http://" ++ trim p) /\
     (wellEnded (dropTrailingSlash (trim p)) = true ->
      hasScheme u = true /\ endsWithSlash u = false /\
      normalisePeer u = Some u)).
Proof.
  split.
  - unfold normalisePeer. destruct (trim p); split; congruence.
  - intros u Hu. unfold normalisePeer in Hu.
    destruct (trim p) as [|a r] eqn:Ht; [discriminate|].
    split; [now injection Hu as <-|].
    destruct (trim_shape p a r Ht) as [Ha [t [c [Htc Hc]]]].
    intros Hwell. rewrite Htc, dropTrailingSlash_snoc in Hwell.
    destruct (hasScheme (a :: r)) eqn:Hsch.
    + apply (normalisePeer_output [] t c); try assumption.
      * simpl. now rewrite <- Htc.
      * simpl. rewrite <- Htc. intros h w Hh. now injection Hh as <- _.
      * simpl. rewrite <- Htc. now injection Hu.
    + apply (normalisePeer_output (lit "http://") t c); try assumption.
      * rewrite <- Htc. reflexivity.
      * intros h w Hh. now injection Hh as <- _.
      * rewrite <- Htc. now injection Hu.
Qed.

Lemma normalisePeer_spec_witness :
  let u := lit "http://38.29.227.39:1984" in
  hasScheme u = true /\ endsWithSlash u = false /\ normalisePeer u = Some u.
Proof.
  destruct (normalisePeer_spec (lit " 38.29.227.39:1984/ ")) as [_ H].
  destruct (H (lit "http://38.29.227.39:1984") eq_refl) as [_ H2].
  exact (H2 eq_refl).
Defined.

(** Two trailing slashes: one survives, and the result is not a fixed
    point. *)
Lemma normalisePeer_counterexample :
  normalisePeer (lit "a//") = Some (lit "http://a/") /\
  normalisePeer (lit "http://a/") = Some (lit "http://a") /\
  ~ (forall u, normalisePeer (lit "a//") = Some u ->
       endsWithSlash u = false /\ normalisePeer u = Some u).
Proof.
  split; [reflexivity|]. split; [reflexivity|].
  intros H. destruct (H _ eq_refl) as [H1 _]. discriminate H1.
Qed.

(** Further inputs: a bare scheme loses its last slash, an upper-case
    scheme is kept as typed, and white space before the slash survives. *)
Example normalisePeer_bare_scheme :
  normalisePeer (lit "http://") = Some (lit "http:/").
Proof. reflexivity. Qed.

Example normalisePeer_upper_case :
  normalisePeer (lit "HTTP://a") = Some (lit "HTTP://a").
Proof. reflexivity. Qed.

Example normalisePeer_space_before_slash :
  normalisePeer (lit "a /") = Some (lit "http://a ") /\
  normalisePeer (lit "http://a ") = Some (lit "http://a").
Proof. split; reflexivity. Qed.

(** * Offset lookup *)

Section OffsetLookup.

Variable W : World.
Variable txid : jsstring.

Lemma fetchTxOffset_loop_first (pre : list jsstring) :
  forall (p : jsstring) (post : list jsstring) (errors es : list JsError)
         (clk : nat) (r : OffsetInfo),
  AllFailed W txid pre clk es ->
  tryTxOffset W txid p (clk + length pre) = inr r ->
  fetchTxOffset_loop W txid (pre ++ p :: post) errors clk
  = (Return r, clk + length pre + 1).
Proof.
  induction pre as [|q pre IH]; intros p post errors es clk r Hfail Hp.
  - simpl in *. rewrite Nat.add_0_r in Hp. rewrite Hp. f_equal. lia.
  - inversion Hfail as [|q' rest' clk' e es' Hq Hrest]; subst.
    simpl. rewrite Hq.
    rewrite (IH p post (errors ++ [e]) es' (S clk) r Hrest).
    + f_equal. lia.
    + rewrite <- Hp. f_equal. simpl. lia.
Qed.

Lemma fetchTxOffset_loop_exhausted (peers : list jsstring) :
  forall (errors es : list JsError) (clk : nat),
  AllFailed W txid peers clk es ->
  fetchTxOffset_loop W txid peers errors clk
  = (Throw (OffsetLookupFailed (errors ++ es)), clk + length peers).
Proof.
  induction peers as [|q peers IH]; intros errors es clk Hfail;
    inversion Hfail as [|q' rest' clk' e es' Hq Hrest]; subst; simpl.
  - now rewrite app_nil_r, Nat.add_0_r.
  - rewrite Hq, (IH (errors ++ [e]) es' (S clk) Hrest), <- app_assoc.
    simpl. f_equal. lia.
Qed.

Lemma fetchTxOffset_loop_throws (peers : list jsstring) :
  forall (errors : list JsError) (clk : nat) (e : JsError) (clk' : nat),
  fetchTxOffset_loop W txid peers errors clk = (Throw e, clk') ->
  exists es, AllFailed W txid peers clk es /\
             e = OffsetLookupFailed (errors ++ es).
Proof.
  induction peers as [|q peers IH]; intros errors clk e clk' H; simpl in H.
  - injection H as <- _. exists []. split; [constructor | now rewrite app_nil_r].
  - destruct (tryTxOffset W txid q clk) as [err|r] eqn:Hq; [|discriminate].
    destruct (IH _ _ _ _ H) as [es [Hes ->]].
    exists (err :: es). split; [now constructor|].
    now rewrite <- app_assoc.
Qed.

(** A value is returned by the first peer that does not fail, after every
    peer before it has failed. *)
Lemma fetchTxOffset_loop_returns (peers : list jsstring) :
  forall (errors : list JsError) (clk : nat) (r : OffsetInfo) (clk' : nat),
  fetchTxOffset_loop W txid peers errors clk = (Return r, clk') ->
  exists pre p post es,
    peers = pre ++ p :: post /\
    AllFailed W txid pre clk es /\
    tryTxOffset W txid p (clk + length pre) = inr r /\
    clk' = clk + length pre + 1.
Proof.
  induction peers as [|q peers IH]; intros errors clk r clk' H;
    cbn [fetchTxOffset_loop] in H; [discriminate|].
  destruct (tryTxOffset W txid q clk) as [err|r0] eqn:Hq.
  - destruct (IH _ _ _ _ H) as [pre [p [post [es [Hpeers [Hes [Hp Hclk]]]]]]].
    exists (q :: pre), p, post, (err :: es).
    split; [now rewrite Hpeers|]. split; [now constructor|].
    cbn [length]. split; [|lia].
    rewrite <- Hp. f_equal. lia.
  - assert (Hr : r0 = r) by congruence. assert (Hc : clk' = S clk) by congruence.
    subst. exists [], q, peers, []. split; [reflexivity|].
    split; [constructor|]. cbn [length]. rewrite Nat.add_0_r.
    split; [exact Hq | lia].
Qed.

Lemma AllFailed_length (peers : list jsstring) (clk : nat) (es : list JsError) :
  AllFailed W txid peers clk es -> length es = length peers.
Proof. induction 1; simpl; congruence. Qed.

(** One peer's answer is a value exactly when the body carries both fields
    and [BigInt] accepts both. *)
Lemma tryTxOffset_value (p : jsstring) (clk : nat) (r : OffsetInfo) :
  tryTxOffset W txid p clk = inr r <->
  exists joffset jsize jchunk,
    get_offset W clk p txid = Resolved (Obj joffset jsize jchunk) /\
    BigInt joffset = inr (offset r) /\ BigInt jsize = inr (size r) /\
    peer r = p.
Proof.
  unfold tryTxOffset. split.
  - destruct (get_offset W clk p txid) as [msg|[|jo js jc]]; try discriminate.
    destruct (defined jo && defined js); [|discriminate].
    destruct (BigInt jo) as [e|o] eqn:Ho; [discriminate|].
    destruct (BigInt js) as [e|sz] eqn:Hs; [discriminate|].
    intros H. injection H as <-. exists jo, js, jc. simpl. auto.
  - intros [jo [js [jc [Hget [Ho [Hs Hp]]]]]]. rewrite Hget.
    assert (Hd : defined jo && defined js = true).
    { destruct jo; try discriminate Ho; destruct js; try discriminate Hs;
        reflexivity. }
    rewrite Hd, Ho, Hs. destruct r; simpl in *. now subst.
Qed.

Lemma tryTxOffset_missing_field (p : jsstring) (clk : nat) :
  hasBothFields (get_offset W clk p txid) = false ->
  exists e, tryTxOffset W txid p clk = inl e.
Proof.
  unfold hasBothFields, tryTxOffset.
  destruct (get_offset W clk p txid) as [msg|[|jo js jc]]; eauto.
  intros ->. eauto.
Qed.

(** C8 (as amended).  [fetchTxOffset] asks the peers in list order, each at
    most once, and returns the first answer that carries both an [offset]
    and a [size] which [BigInt] accepts; an answer missing either field, or
    with a field [BigInt] rejects, is that peer's failure.  It throws
    exactly when every peer has failed, and the error then carries every
    peer's error, one per peer, in order. *)
Theorem fetchTxOffset_spec (peers : list jsstring) (clk : nat) :
  (forall pre p post es r,
      peers = pre ++ p :: post ->
      AllFailed W txid pre clk es ->
      tryTxOffset W txid p (clk + length pre) = inr r ->
      fetchTxOffset W txid peers clk = (Return r, clk + length pre + 1)) /\
  (forall e clk',
      fetchTxOffset W txid peers clk = (Throw e, clk') <->
      exists es, AllFailed W txid peers clk es /\
                 length es = length peers /\
                 e = OffsetLookupFailed es /\ clk' = clk + length peers) /\
  (forall p c r,
      tryTxOffset W txid p c = inr r <->
      exists joffset jsize jchunk,
        get_offset W c p txid = Resolved (Obj joffset jsize jchunk) /\
        BigInt joffset = inr (offset r) /\ BigInt jsize = inr (size r) /\
        peer r = p) /\
  (forall p c,
      hasBothFields (get_offset W c p txid) = false ->
      exists e, tryTxOffset W txid p c = inl e).
Proof.
  split; [|split; [|split]].
  - intros pre p post es r -> Hfail Hp.
    exact (fetchTxOffset_loop_first pre p post [] es clk r Hfail Hp).
  - intros e clk'. unfold fetchTxOffset. split.
    + intros H. destruct (fetchTxOffset_loop_throws peers [] clk e clk' H)
        as [es [Hes He]].
      exists es. split; [exact Hes|]. split; [exact (AllFailed_length _ _ _ Hes)|].
      split; [exact He|].
      rewrite (fetchTxOffset_loop_exhausted peers [] es clk Hes) in H.
      now injection H.
    + intros [es [Hes [_ [-> ->]]]].
      exact (fetchTxOffset_loop_exhausted peers [] es clk Hes).
  - exact tryTxOffset_value.
  - exact tryTxOffset_missing_field.
Qed.

End OffsetLookup.

Lemma fetchTxOffset_spec_witness :
  fetchTxOffset worldBadNumber tx0 [peerA; peerB] 0
  = (Return {| peer := peerB; offset := 9; size := 10 |}, 2).
Proof.
  destruct (fetchTxOffset_spec worldBadNumber tx0 [peerA; peerB] 0) as [H _].
  apply (H [peerA] peerB [] [SyntaxError]).
  - reflexivity.
  - constructor; [reflexivity | constructor].
  - reflexivity.
Defined.

(** [peerA] answers with both fields, but its [offset] is not a number: the
    lookup moves on and returns [peerB]'s answer. *)
Lemma fetchTxOffset_counterexample :
  hasBothFields (get_offset worldBadNumber 0 peerA tx0) = true /\
  fetchTxOffset worldBadNumber tx0 [peerA; peerB] 0
  = (Return {| peer := peerB; offset := 9; size := 10 |}, 2) /\
  ~ (exists o s clk',
       fetchTxOffset worldBadNumber tx0 [peerA; peerB] 0
       = (Return {| peer := peerA; offset := o; size := s |}, clk')).
Proof.
  split; [reflexivity|]. split; [reflexivity|].
  intros [o [s [clk' H]]]. vm_compute in H. discriminate H.
Qed.

(** A peer that is down and a peer whose answer lacks [offset]: the error
    carries both causes, in order. *)
Example fetchTxOffset_all_fail :
  fetchTxOffset worldNoOffset tx0 [peerA; peerB] 0
  = (Throw (OffsetLookupFailed [TransportError (lit "ETIMEDOUT");
                                MalformedResponse peerB]), 2).
Proof. reflexivity. Qed.

(** C3.  For every offset-lookup answer with end offset [E] and size [Sz]
    ([Sz > 0]), whichever peer of the list gives it after the peers before
    it have failed, the start offset, which is where the assembly loop
    begins, is [E - Sz + 1] over the unbounded integers; every value that
    [fetchTxOffset] returns comes from such an answer; and for
    [{offset: "999", size: "1000"}] the start offset is [0]. *)
Theorem startOffset_spec (W : World) (txid : jsstring) (peers : list jsstring)
    (clk : nat) :
  (forall pre p post es joffset jsize jchunk E Sz,
      peers = pre ++ p :: post ->
      AllFailed W txid pre clk es ->
      get_offset W (clk + length pre) p txid
      = Resolved (Obj joffset jsize jchunk) ->
      BigInt joffset = inr E -> BigInt jsize = inr Sz -> (0 < Sz)%Z ->
      exists r,
        fetchTxOffset W txid peers clk = (Return r, clk + length pre + 1) /\
        offset r = E /\ size r = Sz /\
        startOffset r = (E - Sz + 1)%Z /\
        nextPos (initLoop r (clk + length pre + 1)) = (E - Sz + 1)%Z) /\
  (forall r clk',
      fetchTxOffset W txid peers clk = (Return r, clk') ->
      exists pre p post es joffset jsize jchunk,
        peers = pre ++ p :: post /\
        AllFailed W txid pre clk es /\
        clk' = clk + length pre + 1 /\
        get_offset W (clk + length pre) p txid
        = Resolved (Obj joffset jsize jchunk) /\
        BigInt joffset = inr (offset r) /\ BigInt jsize = inr (size r) /\
        startOffset r = (offset r - size r + 1)%Z /\
        nextPos (initLoop r clk') = (offset r - size r + 1)%Z) /\
  (forall pre p post es jchunk,
      peers = pre ++ p :: post ->
      AllFailed W txid pre clk es ->
      get_offset W (clk + length pre) p txid
      = Resolved (Obj (JString (lit "999")) (JString (lit "1000")) jchunk) ->
      exists r,
        fetchTxOffset W txid peers clk = (Return r, clk + length pre + 1) /\
        startOffset r = 0%Z).
Proof.
  assert (Hgen : forall pre p post es joffset jsize jchunk E Sz,
      peers = pre ++ p :: post ->
      AllFailed W txid pre clk es ->
      get_offset W (clk + length pre) p txid
      = Resolved (Obj joffset jsize jchunk) ->
      BigInt joffset = inr E -> BigInt jsize = inr Sz ->
      fetchTxOffset W txid peers clk
      = (Return {| peer := p; offset := E; size := Sz |},
         clk + length pre + 1)).
  { intros pre p post es jo js jc E Sz -> Hfail Hget Ho Hs.
    apply (fetchTxOffset_loop_first W txid pre p post [] es clk _ Hfail).
    apply tryTxOffset_value. exists jo, js, jc. cbn [offset size peer]. auto. }
  split; [|split].
  - intros pre p post es jo js jc E Sz Hpeers Hfail Hget Ho Hs _.
    exists {| peer := p; offset := E; size := Sz |}.
    rewrite (Hgen pre p post es jo js jc E Sz Hpeers Hfail Hget Ho Hs).
    repeat split.
  - intros r clk' Hrun.
    destruct (fetchTxOffset_loop_returns W txid peers [] clk r clk' Hrun)
      as [pre [p [post [es [Hpeers [Hfail [Hp Hclk]]]]]]].
    apply tryTxOffset_value in Hp.
    destruct Hp as [jo [js [jc [Hget [Ho [Hs _]]]]]].
    exists pre, p, post, es, jo, js, jc. repeat split; assumption.
  - intros pre p post es jc Hpeers Hfail Hget.
    exists {| peer := p; offset := 999; size := 1000 |}.
    rewrite (Hgen pre p post es _ _ jc 999%Z 1000%Z Hpeers Hfail Hget
               eq_refl eq_refl).
    split; reflexivity.
Qed.

Lemma startOffset_spec_witness :
  (exists r,
     fetchTxOffset world999 tx0 [peerA; peerB] 0 = (Return r, 1) /\
     startOffset r = 0%Z) /\
  (exists r,
     fetchTxOffset worldBadNumber tx0 [peerA; peerB] 0 = (Return r, 2) /\
     startOffset r = 0%Z).
Proof.
  split.
  - destruct (startOffset_spec world999 tx0 [peerA; peerB] 0) as [Hgen _].
    destruct (Hgen [] peerA [peerB] []
                (JString (lit "999")) (JString (lit "1000")) JUndefined
                999%Z 1000%Z eq_refl (AllFailed_nil world999 tx0 0)
                eq_refl eq_refl eq_refl eq_refl)
      as [r [Hr [_ [_ [Hstart _]]]]].
    exists r. split; [exact Hr | exact Hstart].
  - destruct (startOffset_spec worldBadNumber tx0 [peerA; peerB] 0)
      as [Hgen _].
    destruct (Hgen [peerA] peerB [] [SyntaxError]
                (JString (lit "9")) (JString (lit "10")) JUndefined
                9%Z 10%Z eq_refl
                (AllFailed_cons worldBadNumber tx0 peerA [] 0 SyntaxError []
                   eq_refl (AllFailed_nil worldBadNumber tx0 1))
                eq_refl eq_refl eq_refl eq_refl)
      as [r [Hr [_ [_ [Hstart _]]]]].
    exists r. split; [exact Hr | exact Hstart].
Defined.

(** Offsets beyond 64 bits are not wrapped. *)
Example startOffset_large :
  startOffset {| peer := peerA; offset := 2 ^ 80; size := 2 ^ 70 |}
  = 1207745227993911763402753%Z.
Proof. reflexivity. Qed.

(** * Chunk fetch *)

(** C9.  When the answer has no [offset] field, [fetchChunkFromPeer] takes
    the chunk to end at [absPos + len - 1], that is to start at the
    requested position: the start never precedes the request and the caller
    drops nothing from the front. *)
Theorem fetchChunkFromPeer_without_offset (W : World) (p : jsstring)
    (absPos : Z) (clk : nat) (jsize : JsonValue) (chunk : jsstring) :
  get_chunk W clk p absPos = Resolved (Obj JUndefined jsize (JString chunk)) ->
  exists w,
    fetchChunkFromPeer W p absPos clk = Return w /\
    buf w = base64UrlToBuffer W chunk /\
    end_ w = (absPos + len (buf w) - 1)%Z /\
    start w = absPos /\
    ~ (start w < absPos)%Z /\
    sliceStart (start w) absPos = 0%Z /\
    skipn (Z.to_nat (sliceStart (start w) absPos)) (buf w) = buf w.
Proof.
  intros Hget. unfold fetchChunkFromPeer. rewrite Hget. cbn [defined].
  eexists. split; [reflexivity|]. cbn [buf start end_].
  assert (Hstart : (absPos + len (base64UrlToBuffer W chunk) - 1
                    - len (base64UrlToBuffer W chunk) + 1 = absPos)%Z) by lia.
  rewrite Hstart. unfold sliceStart. rewrite Z.ltb_irrefl.
  repeat split; try reflexivity; lia.
Qed.

Lemma fetchChunkFromPeer_without_offset_witness :
  exists w,
    fetchChunkFromPeer worldPlainChunk peerA 42 0 = Return w /\
    buf w = [x01; x02; x03] /\ start w = 42%Z /\ end_ w = 44%Z /\
    sliceStart (start w) 42 = 0%Z.
Proof.
  destruct (fetchChunkFromPeer_without_offset worldPlainChunk peerA 42 0
              JUndefined (lit "AQID") eq_refl)
    as [w [Hw [Hbuf [Hend [Hstart [_ [Hslice _]]]]]]].
  exists w. split; [exact Hw|].
  assert (Hb : buf w = [x01; x02; x03]) by (rewrite Hbuf; reflexivity).
  split; [exact Hb|]. split; [exact Hstart|]. split; [|exact Hslice].
  rewrite Hend, Hb. reflexivity.
Defined.

(** * Stream assembly *)

Lemma payloadSlice_length (P : Z -> byte) (n : nat) :
  forall from, length (payloadSlice P from n) = n.
Proof. induction n as [|n IH]; intros from; simpl; [|rewrite IH]; reflexivity. Qed.

Lemma payloadSlice_skipn (P : Z -> byte) (k : nat) :
  forall n from,
  skipn k (payloadSlice P from n) = payloadSlice P (from + Z.of_nat k) (n - k).
Proof.
  induction k as [|k IH]; intros n from.
  - simpl. now rewrite Z.add_0_r, Nat.sub_0_r.
  - destruct n as [|n]; [reflexivity|].
    cbn [payloadSlice skipn]. rewrite IH. f_equal. lia.
Qed.

Lemma payloadSlice_firstn (P : Z -> byte) (k : nat) :
  forall n from,
  firstn k (payloadSlice P from n) = payloadSlice P from (Nat.min k n).
Proof.
  induction k as [|k IH]; intros n from; [reflexivity|].
  destruct n as [|n]; [reflexivity|].
  cbn [payloadSlice firstn Nat.min]. now rewrite IH.
Qed.

Lemma payloadSlice_app (P : Z -> byte) (a : nat) :
  forall b from,
  payloadSlice P from a ++ payloadSlice P (from + Z.of_nat a) b
  = payloadSlice P from (a + b).
Proof.
  induction a as [|a IH]; intros b from.
  - simpl. now rewrite Z.add_0_r.
  - cbn [payloadSlice Nat.add app]. rewrite <- IH. do 3 f_equal. lia.
Qed.

Lemma len_app (a b : Buffer) : len (a ++ b) = (len a + len b)%Z.
Proof. unfold len. rewrite length_app. lia. Qed.

Lemma len_nonneg (a : Buffer) : (0 <= len a)%Z.
Proof. unfold len. lia. Qed.

Lemma usableSlice_eq (size acc pos : Z) (w : Window) :
  (acc < size)%Z ->
  usableSlice size acc pos w
  = firstn (Z.to_nat (size - acc)) (skipn (Z.to_nat (pos - start w)) (buf w)).
Proof.
  intros Hlt. unfold usableSlice, sliceStart.
  assert (Hs : Z.to_nat (if (start w <? pos)%Z then (pos - start w)%Z else 0%Z)
               = Z.to_nat (pos - start w)).
  { destruct (Z.ltb_spec (start w) pos); [reflexivity|]. lia. }
  rewrite Hs.
  set (u := skipn (Z.to_nat (pos - start w)) (buf w)).
  destruct (Z.gtb_spec (len u) (size - acc)) as [Hgt|Hle]; [reflexivity|].
  symmetry. apply firstn_all2. unfold len in Hle. lia.
Qed.

Lemma len_firstn_le (n : Z) (u : Buffer) :
  (0 <= n)%Z -> (len (firstn (Z.to_nat n) u) <= n)%Z.
Proof.
  intros Hn. unfold len. rewrite length_firstn. lia.
Qed.

Lemma totalLen_cons (it : Iter) (its : list Iter) :
  totalLen (it :: its) = (len (it_usable it) + totalLen its)%Z.
Proof. unfold totalLen. simpl. apply len_app. Qed.

Lemma totalLen_nonneg (its : list Iter) : (0 <= totalLen its)%Z.
Proof. apply len_nonneg. Qed.

Section AssemblyLoop.

Variable W : World.
Variable allPeers : list jsstring.
Variable size : Z.

(** A run of the loop that ends normally, read off its final state. *)
Lemma assembleLoop_run (fuel : nat) :
  forall st st',
  assembleLoop W fuel allPeers size st = Some (Return st') ->
  exists its,
    history st' = history st ++ its /\
    buffers st' = buffers st ++ map it_usable its /\
    bytesAccum st' = (bytesAccum st + totalLen its)%Z /\
    steps size (bytesAccum st) (nextPos st) its /\
    Forall (fetched W allPeers) its /\
    (size <= bytesAccum st')%Z.
Proof.
  induction fuel as [|fuel IH]; intros st st' H.
  - cbn [assembleLoop] in H.
    destruct (Z.ltb_spec (bytesAccum st) size) as [Hlt|Hge]; [discriminate|].
    injection H as <-. exists []. unfold totalLen. simpl.
    rewrite !app_nil_r. repeat split; try constructor; unfold len; simpl; lia.
  - cbn [assembleLoop] in H.
    destruct (Z.ltb_spec (bytesAccum st) size) as [Hlt|Hge].
    2:{ injection H as <-. exists []. unfold totalLen. simpl.
        rewrite !app_nil_r. repeat split; try constructor; unfold len; simpl; lia. }
    destruct (fetchChunk W allPeers (nextPos st) (clock st)) as [[w|e] clk'] eqn:Hf;
      [|discriminate].
    cbv zeta in H.
    set (usable := usableSlice size (bytesAccum st) (nextPos st) w) in *.
    set (it := {| it_nextPos := nextPos st; it_window := w; it_usable := usable |}) in *.
    assert (Hus : usable = firstn (Z.to_nat (size - bytesAccum st))
                            (skipn (Z.to_nat (nextPos st - start w)) (buf w)))
      by (exact (usableSlice_eq size (bytesAccum st) (nextPos st) w Hlt)).
    assert (Hle : (bytesAccum st + len usable <= size)%Z).
    { rewrite Hus.
      pose proof (len_firstn_le (size - bytesAccum st)
                    (skipn (Z.to_nat (nextPos st - start w)) (buf w))). lia. }
    assert (Hfetched : fetched W allPeers it).
    { exists (clock st), clk'. exact Hf. }
    destruct (Z.geb_spec (bytesAccum st + len usable) size) as [Hdone|Hmore].
    + injection H as <-. exists [it]. cbn [history buffers bytesAccum map].
      rewrite totalLen_cons. unfold totalLen at 1. cbn [map concat].
      cbn [steps it_window it_nextPos it_usable it].
      change (len []) with 0%Z.
      repeat split; try assumption; try lia.
      repeat constructor; assumption.
    + apply IH in H. cbn [history buffers bytesAccum nextPos] in H.
      destruct H as [its [Hh [Hb [Ha [Hs [Hfs Hsz]]]]]].
      exists (it :: its). rewrite totalLen_cons.
      cbn [steps map it_window it_nextPos it_usable it].
      rewrite Hh, Hb, Ha, <- !app_assoc. cbn [app].
      repeat split; try assumption; try lia.
      constructor; assumption.
Qed.

Lemma assembleLoop_S (fuel : nat) (st : LoopState) :
  assembleLoop W (S fuel) allPeers size st
  = if (bytesAccum st <? size)%Z then
      match fetchChunk W allPeers (nextPos st) (clock st) with
      | (Throw err, _) => Some (Throw err)
      | (Return w, clk') =>
          let usable := usableSlice size (bytesAccum st) (nextPos st) w in
          let st' :=
            {| buffers := buffers st ++ [usable];
               bytesAccum := (bytesAccum st + len usable)%Z;
               nextPos := (start w + len (buf w))%Z;
               chunkCount := S (chunkCount st);
               clock := clk';
               history := history st ++
                 [{| it_nextPos := nextPos st; it_window := w;
                     it_usable := usable |}] |} in
          if (bytesAccum st + len usable >=? size)%Z then
            Some (Return {| buffers := buffers st';
                            bytesAccum := bytesAccum st';
                            nextPos := nextPos st;
                            chunkCount := chunkCount st';
                            clock := clk';
                            history := history st' |})
          else assembleLoop W fuel allPeers size st'
      end
    else Some (Return st).
Proof. reflexivity. Qed.

(** A run that has ended does not change when more fuel is given. *)
Lemma assembleLoop_more_fuel (fuel : nat) :
  forall st res,
  assembleLoop W fuel allPeers size st = Some res ->
  assembleLoop W (S fuel) allPeers size st = Some res.
Proof.
  induction fuel as [|fuel IH]; intros st res H.
  - cbn [assembleLoop] in *.
    destruct (bytesAccum st <? size)%Z; [discriminate | exact H].
  - rewrite (assembleLoop_S (S fuel)). rewrite (assembleLoop_S fuel) in H.
    destruct (bytesAccum st <? size)%Z; [|exact H].
    destruct (fetchChunk W allPeers (nextPos st) (clock st)) as [[w|e] clk'];
      [|exact H].
    cbv zeta in *.
    destruct (bytesAccum st
              + len (usableSlice size (bytesAccum st) (nextPos st) w) >=? size)%Z;
      [exact H|].
    apply IH. exact H.
Qed.

Lemma steps_bound : forall its acc pos,
  steps size acc pos its -> (acc <= size)%Z -> (acc + totalLen its <= size)%Z.
Proof.
  induction its as [|it rest IH]; intros acc pos Hs Hacc.
  - unfold totalLen, len. simpl. lia.
  - cbn [steps] in Hs. destruct Hs as (_ & _ & _ & Hle & Hrest).
    rewrite totalLen_cons. specialize (IH _ _ Hrest Hle). lia.
Qed.

(** Honest answers: every window holds the requested position and carries
    the payload's bytes. *)
Lemma steps_honest (P : Z -> byte) : forall its acc pos,
  steps size acc pos its ->
  Forall (fun it => contains (it_window it) (it_nextPos it) /\
                    truthful P (it_window it)) its ->
  chained pos its /\ Forall nonEmptySlice its /\
  concat (map it_usable its) = payloadSlice P pos (Z.to_nat (totalLen its)).
Proof.
  induction its as [|it rest IH]; intros acc pos Hs Hall.
  - simpl. repeat split. constructor.
  - cbn [steps] in Hs. destruct Hs as (Hlt & Hpos & Hus & Hle & Hrest).
    inversion Hall as [|x l [Hc Ht] Hall']; subst x l.
    unfold contains in Hc. rewrite Hpos in Hc. unfold truthful in Ht.
    set (w := it_window it) in *.
    set (k := Z.to_nat (pos - start w)) in *.
    assert (Hsk : skipn k (buf w) = payloadSlice P pos (length (buf w) - k)).
    { transitivity (skipn k (payloadSlice P (start w) (length (buf w)))).
      - f_equal. exact Ht.
      - rewrite payloadSlice_skipn. f_equal. unfold k. lia. }
    set (m := Nat.min (Z.to_nat (size - acc)) (length (buf w) - k)).
    assert (Hu : it_usable it = payloadSlice P pos m).
    { rewrite Hus, Hsk. apply payloadSlice_firstn. }
    assert (Hlen : len (it_usable it) = Z.of_nat m).
    { rewrite Hu. unfold len. now rewrite payloadSlice_length. }
    assert (Hm : (0 < Z.of_nat m)%Z).
    { unfold m, k, len in *. lia. }
    assert (Hfrom : it_from it = pos).
    { unfold it_from. fold w. rewrite Hpos. lia. }
    rewrite totalLen_cons. cbn [chained map concat].
    destruct rest as [|it2 rest2].
    + unfold totalLen. cbn [map concat chained]. change (len []) with 0%Z.
      rewrite app_nil_r, Z.add_0_r.
      repeat split; try assumption.
      * constructor; [unfold nonEmptySlice; lia | constructor].
      * rewrite Hlen, Nat2Z.id. exact Hu.
    + assert (Hnext : (acc + len (it_usable it) < size)%Z).
      { cbn [steps] in Hrest. tauto. }
      assert (Hto : (start w + len (buf w))%Z = it_to it).
      { unfold it_to. rewrite Hfrom, Hlen. unfold m, k, len in *. lia. }
      rewrite Hto in Hrest.
      destruct (IH _ _ Hrest Hall') as [Hch [Hne Hcat]].
      split; [split; [exact Hfrom | exact Hch]|]. split.
      * constructor; [unfold nonEmptySlice; lia | exact Hne].
      * rewrite Hcat. unfold it_to. rewrite Hfrom, Hlen, Hu.
        rewrite payloadSlice_app. f_equal.
        pose proof (totalLen_nonneg (it2 :: rest2)). lia.
Qed.

End AssemblyLoop.

(** C2 (as amended).  Whatever the peers answer, each iteration keeps
    [buf.slice(nextPos - start)] of the window when the window starts before
    [nextPos] (the whole of it otherwise), cut so that the accumulated
    length does not exceed [size], and the next request is for
    [start + len buf].  When every window holds the requested position and
    carries the payload's bytes, the usable slices stand for non-empty
    ranges, each beginning where the one before ended and the first at the
    start offset, and their concatenation is the payload over that range. *)
Theorem assembleLoop_slices (W : World) (allPeers : list jsstring) (size : Z)
    (P : Z -> byte) (fuel : nat) (r : OffsetInfo) (clk : nat) (st : LoopState) :
  assembleLoop W fuel allPeers size (initLoop r clk) = Some (Return st) ->
  (steps size 0 (startOffset r) (history st) /\
   buffers st = map it_usable (history st) /\
   bytesAccum st = totalLen (history st) /\
   (0 <= size -> bytesAccum st <= size)%Z) /\
  ((forall pos clk0 w clk1,
       fetchChunk W allPeers pos clk0 = (Return w, clk1) ->
       contains w pos /\ truthful P w) ->
   chained (startOffset r) (history st) /\
   Forall nonEmptySlice (history st) /\
   concat (buffers st)
   = payloadSlice P (startOffset r) (Z.to_nat (bytesAccum st))).
Proof.
  intros Hrun.
  destruct (assembleLoop_run W allPeers size fuel _ _ Hrun)
    as [its [Hh [Hb [Ha [Hs [Hf _]]]]]].
  cbn [initLoop history buffers bytesAccum nextPos app] in Hh, Hb, Ha, Hs.
  rewrite Z.add_0_l in Ha. rewrite Hh, Hb, Ha.
  split.
  - repeat split; try assumption.
    intros Hsize. pose proof (steps_bound size its 0 _ Hs Hsize). lia.
  - intros Hhonest.
    assert (Hall : Forall (fun it => contains (it_window it) (it_nextPos it) /\
                                     truthful P (it_window it)) its).
    { rewrite Forall_forall in *. intros it Hin.
      destruct (Hf it Hin) as [c0 [c1 Hfetch]]. exact (Hhonest _ _ _ _ Hfetch). }
    exact (steps_honest size P its 0 _ Hs Hall).
Qed.

Lemma div3_unique (q j : Z) : (0 <= j < 3)%Z -> ((3 * q + j) / 3 = q)%Z.
Proof. intros Hj. symmetry. apply (Z.div_unique _ 3 q j); lia. Qed.

Lemma worldGrid_chunk (p : jsstring) (pos : Z) (clk : nat) :
  fetchChunkFromPeer worldGrid p pos clk
  = Return {| buf := if ((pos / 3) mod 2 =? 0)%Z then [x00; x00; x00]
                     else [x01; x01; x01];
              start := (3 * (pos / 3))%Z;
              end_ := (3 * (pos / 3) + 2)%Z |}.
Proof.
  unfold fetchChunkFromPeer. cbn [get_chunk worldGrid mkWorld defined BigInt].
  destruct ((pos / 3) mod 2 =? 0)%Z.
  - replace (base64UrlToBuffer worldGrid (lit "AAAA")) with [x00; x00; x00]
      by (vm_compute; reflexivity).
    f_equal. f_equal. unfold len. simpl length. lia.
  - replace (base64UrlToBuffer worldGrid (lit "AQEB")) with [x01; x01; x01]
      by (vm_compute; reflexivity).
    f_equal. f_equal. unfold len. simpl length. lia.
Qed.

Lemma worldGrid_honest (pos : Z) (clk0 : nat) (w : Window) (clk1 : nat) :
  fetchChunk worldGrid [peerA] pos clk0 = (Return w, clk1) ->
  contains w pos /\ truthful gridPayload w.
Proof.
  unfold fetchChunk. cbn [fetchChunk_loop]. rewrite worldGrid_chunk.
  intros H.
  assert (Hw : w = {| buf := if ((pos / 3) mod 2 =? 0)%Z then [x00; x00; x00]
                             else [x01; x01; x01];
                      start := (3 * (pos / 3))%Z;
                      end_ := (3 * (pos / 3) + 2)%Z |}) by congruence.
  clear H. subst w. unfold contains, truthful. cbn [buf start].
  pose proof (Z.div_mod pos 3 ltac:(lia)) as Hdm.
  pose proof (Z.mod_pos_bound pos 3 ltac:(lia)) as Hmod.
  split.
  - destruct ((pos / 3) mod 2 =? 0)%Z; unfold len; cbn [length]; lia.
  - assert (Hp : forall j, (0 <= j < 3)%Z ->
                 gridPayload (3 * (pos / 3) + j)
                 = if ((pos / 3) mod 2 =? 0)%Z then x00 else x01).
    { intros j Hj. unfold gridPayload. now rewrite div3_unique. }
    assert (H0 := Hp 0%Z ltac:(lia)). assert (H1 := Hp 1%Z ltac:(lia)).
    assert (H2 := Hp 2%Z ltac:(lia)).
    rewrite Z.add_0_r in H0.
    replace (3 * (pos / 3) + 2)%Z with (3 * (pos / 3) + 1 + 1)%Z in H2 by lia.
    destruct ((pos / 3) mod 2 =? 0)%Z; cbn [length payloadSlice];
      now rewrite H0, H1, H2.
Qed.

Lemma assembleLoop_slices_witness :
  exists st,
    assembleLoop worldGrid 10 [peerA] 7
      (initLoop {| peer := peerA; offset := 7; size := 7 |} 1)
    = Some (Return st) /\
    map (fun it => (it_from it, it_to it)) (history st)
    = [(1, 3); (3, 6); (6, 8)]%Z /\
    chained 1 (history st) /\
    concat (buffers st) = payloadSlice gridPayload 1 7.
Proof.
  eexists. split; [vm_compute; reflexivity|]. split; [reflexivity|].
  destruct (assembleLoop_slices worldGrid [peerA] 7 gridPayload 10
              {| peer := peerA; offset := 7; size := 7 |} 1 _ eq_refl)
    as [_ H].
  destruct (H worldGrid_honest) as [Hch [_ Hcat]].
  split; [exact Hch | exact Hcat].
Defined.

(** The peer answers the request for position 0 with the window [2..3]:
    the slice kept stands for a range that does not begin at the start
    offset, and the output is not the payload over [0..1]. *)
Lemma assembleLoop_slices_counterexample :
  exists st,
    assembleLoop worldMisplaced 5 [peerA] 2
      (initLoop {| peer := peerA; offset := 1; size := 2 |} 1)
    = Some (Return st) /\
    map (fun it => (it_nextPos it, it_from it, it_to it)) (history st)
    = [(0, 2, 4)]%Z /\
    Forall (fun it => truthful (fun z => byte_of_N (Z.to_N (z - 1)))
                               (it_window it)) (history st) /\
    ~ chained (startOffset {| peer := peerA; offset := 1; size := 2 |})
              (history st) /\
    concat (buffers st)
    <> payloadSlice (fun z => byte_of_N (Z.to_N (z - 1))) 0 2.
Proof.
  eexists. split; [vm_compute; reflexivity|]. split; [reflexivity|].
  split; [repeat constructor|]. split.
  - intros [H _]. vm_compute in H. discriminate H.
  - vm_compute. discriminate.
Qed.

Section Termination.

Variable W : World.
Variable allPeers : list jsstring.
Variable size : Z.

Lemma fetchChunk_loop_throws (peers : list jsstring) (pos : Z) :
  forall (errors : list JsError) (clk : nat) (e : JsError) (clk' : nat),
  fetchChunk_loop W peers pos errors clk = (Throw e, clk') ->
  exists es, e = AllPeersFailed pos (errors ++ es) /\ length es = length peers.
Proof.
  induction peers as [|p peers IH]; intros errors clk e clk' H; simpl in H.
  - injection H as <- _. exists []. now rewrite app_nil_r.
  - destruct (fetchChunkFromPeer W p pos clk) as [w|err]; [discriminate|].
    destruct (IH _ _ _ _ H) as [es [-> Hlen]].
    exists (err :: es). rewrite <- app_assoc. simpl. auto.
Qed.

(** Every window that comes back holds the position that was asked for. *)
Hypothesis progress :
  forall pos clk w clk',
    fetchChunk W allPeers pos clk = (Return w, clk') -> contains w pos.

Lemma assembleLoop_total (fuel : nat) :
  forall st,
  (Z.to_nat (size - bytesAccum st) <= fuel)%nat ->
  exists res,
    assembleLoop W fuel allPeers size st = Some res /\
    match res with
    | Return st' =>
        (size <= bytesAccum st')%Z /\
        ((bytesAccum st <= size)%Z -> bytesAccum st' = size)
    | Throw e =>
        exists pos causes,
          e = AllPeersFailed pos causes /\ length causes = length allPeers
    end.
Proof.
  induction fuel as [|fuel IH]; intros st Hfuel.
  - cbn [assembleLoop].
    destruct (Z.ltb_spec (bytesAccum st) size) as [Hlt|Hge]; [lia|].
    exists (Return st). split; [reflexivity|]. split; lia.
  - cbn [assembleLoop].
    destruct (Z.ltb_spec (bytesAccum st) size) as [Hlt|Hge].
    2:{ exists (Return st). split; [reflexivity|]. split; lia. }
    destruct (fetchChunk W allPeers (nextPos st) (clock st)) as [[w|e] clk'] eqn:Hf.
    + cbv zeta.
      pose proof (progress _ _ _ _ Hf) as Hc. unfold contains in Hc.
      set (usable := usableSlice size (bytesAccum st) (nextPos st) w).
      assert (Hlen : len usable
                     = Z.min (size - bytesAccum st)
                             (start w + len (buf w) - nextPos st)).
      { unfold usable.
        rewrite (usableSlice_eq size (bytesAccum st) (nextPos st) w Hlt).
        unfold len in *. rewrite length_firstn, length_skipn. lia. }
      destruct (Z.geb_spec (bytesAccum st + len usable) size) as [Hdone|Hmore].
      * eexists. split; [reflexivity|]. cbn [bytesAccum]. split; lia.
      * match goal with
        | |- context [assembleLoop W fuel allPeers size ?s] =>
            destruct (IH s) as [res [Hres Hpost]]
        end.
        { cbn [bytesAccum]. lia. }
        exists res. split; [exact Hres|].
        destruct res as [st'|e]; [|exact Hpost].
        cbn [bytesAccum] in Hpost. destruct Hpost as [H1 H2].
        split; [exact H1|]. intros _. apply H2. lia.
    + exists (Throw e). split; [reflexivity|].
      destruct (fetchChunk_loop_throws allPeers (nextPos st) [] (clock st) e clk' Hf)
        as [es [-> Hlen]].
      exists (nextPos st), es. auto.
Qed.

End Termination.

(** C4 (as amended).  When every window that is fetched holds the position
    that was asked for, the assembly loop ends within [size] iterations:
    either the accumulated length has reached [size] exactly, or a fetch on
    which every peer failed has thrown the error that carries all the
    peers' errors. *)
Theorem assembleLoop_terminates (W : World) (allPeers : list jsstring)
    (r : OffsetInfo) (clk fuel : nat) :
  (forall pos c w c',
      fetchChunk W allPeers pos c = (Return w, c') -> contains w pos) ->
  (Z.to_nat (size r) <= fuel)%nat ->
  exists res,
    assembleLoop W fuel allPeers (size r) (initLoop r clk) = Some res /\
    match res with
    | Return st => (0 <= size r)%Z -> bytesAccum st = size r
    | Throw e =>
        exists pos causes,
          e = AllPeersFailed pos causes /\ length causes = length allPeers
    end.
Proof.
  intros Hprogress Hfuel.
  destruct (assembleLoop_total W allPeers (size r) Hprogress fuel (initLoop r clk))
    as [res [Hres Hpost]].
  { cbn [initLoop bytesAccum]. rewrite Z.sub_0_r. exact Hfuel. }
  exists res. split; [exact Hres|].
  destruct res as [st|e]; [|exact Hpost].
  cbn [initLoop bytesAccum] in Hpost. tauto.
Qed.

Lemma worldGrid_progress (pos : Z) (c : nat) (w : Window) (c' : nat) :
  fetchChunk worldGrid [peerA] pos c = (Return w, c') -> contains w pos.
Proof. intros H. exact (proj1 (worldGrid_honest pos c w c' H)). Qed.

Lemma assembleLoop_terminates_witness :
  exists st,
    assembleLoop worldGrid 7 [peerA] 7
      (initLoop {| peer := peerA; offset := 7; size := 7 |} 1)
    = Some (Return st) /\ bytesAccum st = 7%Z.
Proof.
  destruct (assembleLoop_terminates worldGrid [peerA]
              {| peer := peerA; offset := 7; size := 7 |} 1 7
              worldGrid_progress)
    as [res [Hres Hpost]].
  - vm_compute. lia.
  - destruct res as [st|e].
    + exists st. split; [exact Hres|]. apply Hpost. cbn [size]. lia.
    + exfalso. vm_compute in Hres. discriminate Hres.
Defined.

(** The peer answers every request with the window [0..2], which lies
    before the position asked for: nothing is kept, the next request is for
    position 3 again and again, and no amount of fuel ends the loop. *)
Lemma worldStuck_loops (p : jsstring) (rest : list jsstring) (fuel : nat) :
  forall st,
  bytesAccum st = 0%Z -> (3 <= nextPos st)%Z ->
  assembleLoop worldStuck fuel (p :: rest) 3 st = None.
Proof.
  induction fuel as [|fuel IH]; intros st Hacc Hpos; cbn [assembleLoop];
    rewrite Hacc; change (0 <? 3)%Z with true; cbv iota; [reflexivity|].
  unfold fetchChunk. cbn [fetchChunk_loop].
  assert (Hw : fetchChunkFromPeer worldStuck p (nextPos st) (clock st)
               = Return {| buf := [x01; x02; x03]; start := 0; end_ := 2 |}).
  { unfold fetchChunkFromPeer.
    cbn [get_chunk worldStuck mkWorld defined].
    replace (base64UrlToBuffer worldStuck (lit "AQID")) with [x01; x02; x03]
      by (vm_compute; reflexivity).
    reflexivity. }
  rewrite Hw. cbv zeta.
  assert (Hu : usableSlice 3 0 (nextPos st)
                 {| buf := [x01; x02; x03]; start := 0; end_ := 2 |} = []).
  { rewrite usableSlice_eq by lia. cbn [buf start].
    rewrite skipn_all2; [reflexivity|]. cbn [length]. lia. }
  rewrite Hu. change (len []) with 0%Z. change (0 + 0 >=? 3)%Z with false.
  cbv iota. apply IH; cbn [bytesAccum nextPos buf start]; [reflexivity|].
  unfold len. cbn [length]. lia.
Qed.

Lemma assembleLoop_counterexample :
  (forall pos c w c',
      fetchChunk worldStuck [peerA] pos c = (Return w, c') ->
      (end_ w < 3)%Z) /\
  (forall fuel,
      assembleLoop worldStuck fuel [peerA] 3
        (initLoop {| peer := peerA; offset := 12; size := 3 |} 1) = None) /\
  (forall fuel, fetchArweaveChunks worldStuck fuel opts0 = None).
Proof.
  split; [|split].
  - intros pos c w c'. unfold fetchChunk. cbn [fetchChunk_loop].
    unfold fetchChunkFromPeer. cbn [get_chunk worldStuck mkWorld defined].
    change (BigInt (JString (lit "2"))) with (@inr JsError Z 2%Z). cbv iota.
    intros H. assert (Hend : end_ w = 2%Z) by (injection H as <- _; reflexivity).
    lia.
  - intros fuel. apply worldStuck_loops; cbn; [reflexivity | lia].
  - intros fuel. unfold fetchArweaveChunks.
    replace (fetchTxOffset worldStuck (txid opts0) (allPeersOf opts0) 0)
      with (Return {| peer := lit "https://arweave.net"; offset := 12; size := 3 |}, 1)
      by (vm_compute; reflexivity).
    cbn [size].
    replace (allPeersOf opts0)
      with (lit "https://arweave.net" :: tl (allPeersOf opts0))
      by (vm_compute; reflexivity).
    rewrite worldStuck_loops; [reflexivity | reflexivity | cbn; lia].
Qed.

(** C1.  When [fetchArweaveChunks] returns, the payload written to the
    output file has exactly the [size] that the offset lookup gave; when the
    concatenated buffers have any other length it throws [Incomplete] and
    writes nothing. *)
Theorem fetchArweaveChunks_length (W : World) (fuel : nat) (opts : Opts)
    (res : Completion FetchResult) (writes : list (jsstring * Buffer)) :
  fetchArweaveChunks W fuel opts = Some (res, writes) ->
  (forall r, res = Return r ->
     exists info clk out,
       fetchTxOffset W (txid opts) (allPeersOf opts) 0 = (Return info, clk) /\
       writes = [(outfileOf opts, out)] /\
       len out = size info /\ res_bytes r = size info) /\
  (forall info clk st,
     fetchTxOffset W (txid opts) (allPeersOf opts) 0 = (Return info, clk) ->
     assembleLoop W fuel (allPeersOf opts) (size info) (initLoop info clk)
     = Some (Return st) ->
     len (concat (buffers st)) <> size info ->
     res = Throw (Incomplete (size info) (len (concat (buffers st)))) /\
     writes = []) /\
  (forall e, res = Throw e -> writes = []).
Proof.
  unfold fetchArweaveChunks. intros H.
  destruct (fetchTxOffset W (txid opts) (allPeersOf opts) 0) as [[info|e] clk].
  2:{ injection H as <- <-.
      repeat split; intros; try discriminate; reflexivity. }
  destruct (assembleLoop W fuel (allPeersOf opts) (size info) (initLoop info clk))
    as [[st|e]|] eqn:Hloop; [| |discriminate].
  2:{ injection H as <- <-. split; [discriminate|]. split; [|reflexivity].
      intros info' clk' st' Hi Hs. injection Hi as <- <-.
      rewrite Hloop in Hs. discriminate. }
  unfold finishAssembly in H.
  destruct (Z.eqb_spec (len (concat (buffers st))) (size info)) as [Heq|Hne];
    cbn [negb] in H; injection H as <- <-.
  - split; [|split].
    + intros r Hr. injection Hr as <-.
      exists info, clk, (concat (buffers st)). cbn [res_bytes]. auto.
    + intros info' clk' st' Hi Hs. injection Hi as <- <-.
      rewrite Hloop in Hs. injection Hs as <-.
      intros Hne. contradiction.
    + discriminate.
  - split; [|split].
    + discriminate.
    + intros info' clk' st' Hi Hs. injection Hi as <- <-.
      rewrite Hloop in Hs. injection Hs as <-. auto.
    + reflexivity.
Qed.

Lemma fetchArweaveChunks_length_witness :
  exists info clk out,
    fetchTxOffset worldPlainChunk (txid opts0) (allPeersOf opts0) 0
    = (Return info, clk) /\
    [(lit "SIaSQkaJ.bin",
      [x01; x02; x03; x01; x02; x03; x01; x02; x03; x01])]
    = [(outfileOf opts0, out)] /\
    len out = size info /\ 10%Z = size info.
Proof.
  assert (Hrun : fetchArweaveChunks worldPlainChunk 10 opts0
                 = Some (Return {| res_outfile := lit "/work/SIaSQkaJ.bin";
                                   res_bytes := 10 |},
                         [(lit "SIaSQkaJ.bin",
                           [x01; x02; x03; x01; x02; x03; x01; x02; x03; x01])]))
    by (vm_compute; reflexivity).
  destruct (fetchArweaveChunks_length _ _ _ _ _ Hrun) as [H _].
  exact (H _ eq_refl).
Defined.

(** A negative [size]: the loop does not run, nothing is written. *)
Example fetchArweaveChunks_negative_size :
  fetchArweaveChunks worldNegative 0 opts0 = Some (Throw (Incomplete (-3) 0), []).
Proof. vm_compute. reflexivity. Qed.

(** * The uploader *)

Lemma sleeps_app (a b : list Event) : sleeps (a ++ b) = sleeps a ++ sleeps b.
Proof. apply flat_map_app. Qed.

Lemma retries_app (a b : list Event) : retries (a ++ b) = retries a ++ retries b.
Proof. apply flat_map_app. Qed.


Section UploadLoop.

Variable E : UploadEnv.
Variable total : nat.

Lemma tryChunk_quiet (i attempt : nat) :
  sleeps (fst (tryChunk E i attempt)) = [] /\
  retries (fst (tryChunk E i attempt)) = [].
Proof.
  unfold tryChunk. destruct (attemptOutcome E i attempt) as [| |[status|msg]];
    cbn; try (split; reflexivity);
    destruct ((_ =? 200)%Z || (_ =? 208)%Z); split; reflexivity.
Qed.

Lemma tryChunk_success (i attempt : nat) (evs : list Event) (status : Z) :
  tryChunk E i attempt = (evs, inr status) ->
  isSuccess (attemptOutcome E i attempt) = true /\
  (status = 200 \/ status = 208)%Z.
Proof.
  unfold tryChunk, isSuccess.
  destruct (attemptOutcome E i attempt) as [| |[s|msg]]; try discriminate.
  destruct ((s =? 200)%Z || (s =? 208)%Z) eqn:Hs; [|discriminate].
  intros H. injection H as _ <-. split; [reflexivity|].
  apply orb_true_iff in Hs. destruct Hs as [Hs|Hs]; apply Z.eqb_eq in Hs; auto.
Qed.

Lemma tryChunk_failure (i attempt : nat) (evs : list Event) (err : ChunkError) :
  tryChunk E i attempt = (evs, inl err) ->
  isSuccess (attemptOutcome E i attempt) = false.
Proof.
  unfold tryChunk, isSuccess.
  destruct (attemptOutcome E i attempt) as [| |[s|msg]]; try reflexivity.
  destruct ((s =? 200)%Z || (s =? 208)%Z); [discriminate | reflexivity].
Qed.

Lemma chunkSucceedsFrom_step (i attempt : nat) :
  attempt <= MAX_RETRIES_PER_CHUNK ->
  chunkSucceedsFrom E i attempt
  = isSuccess (attemptOutcome E i attempt) || chunkSucceedsFrom E i (S attempt).
Proof.
  intros Ha. unfold chunkSucceedsFrom.
  replace (S MAX_RETRIES_PER_CHUNK - attempt)
    with (S (S MAX_RETRIES_PER_CHUNK - S attempt)) by lia.
  reflexivity.
Qed.

(** One chunk, from pass [attempt] on. *)
Lemma uploadChunk_spec (i : nat) (fuel : nat) :
  forall attempt st,
  attempt <= MAX_RETRIES_PER_CHUNK ->
  S MAX_RETRIES_PER_CHUNK - attempt <= fuel ->
  exists st' evs k,
    uploadChunk E fuel total i attempt st = Some st' /\
    trace st' = trace st ++ evs /\
    attempt + k <= MAX_RETRIES_PER_CHUNK /\
    retries evs = seq (attempt + 1) k /\
    sleeps evs = map (fun n => RETRY_DELAY_MS_BASE * n) (seq (attempt + 1) k) /\
    if chunkSucceedsFrom E i attempt then
      successCount st' = S (successCount st) /\
      failedChunks st' = failedChunks st /\
      exists status, (status = 200 \/ status = 208)%Z /\
                     In (LogUploaded (i + 1) total status) evs
    else
      attempt + k = MAX_RETRIES_PER_CHUNK /\
      successCount st' = successCount st /\
      failedChunks st' = failedChunks st ++ [i + 1] /\
      exists err, In (LogGivingUp i err) evs.
Proof.
  induction fuel as [|fuel IH]; intros attempt st Ha Hfuel; [lia|].
  cbn [uploadChunk].
  pose proof (tryChunk_quiet i attempt) as [Hq1 Hq2].
  rewrite (chunkSucceedsFrom_step i attempt Ha).
  destruct (tryChunk E i attempt) as [evs0 [err|status]] eqn:Ht; cbn [fst] in Hq1, Hq2.
  - rewrite (tryChunk_failure _ _ _ _ Ht). cbn [orb].
    destruct (Nat.ltb_spec MAX_RETRIES_PER_CHUNK (attempt + 1)) as [Hlast|Hmore].
    + (* the budget is spent *)
      eexists. exists (evs0 ++ [LogGivingUp i err]), 0.
      split; [reflexivity|]. cbn [trace successCount failedChunks seq map].
      rewrite retries_app, sleeps_app, Hq1, Hq2.
      assert (Hfrom : chunkSucceedsFrom E i (S attempt) = false).
      { unfold chunkSucceedsFrom.
        replace (S MAX_RETRIES_PER_CHUNK - S attempt) with 0 by lia. reflexivity. }
      rewrite Hfrom. repeat split; try reflexivity; try lia.
      exists err. apply in_or_app. right. left. reflexivity.
    + match goal with
      | |- context [uploadChunk E fuel total i (attempt + 1) ?s] =>
          destruct (IH (attempt + 1) s) as [st' [evs [k H]]]; [lia | lia |]
      end.
      destruct H as (Hrun & Htr & Hk & Hret & Hsl & Hres).
      cbn [trace successCount failedChunks] in Htr, Hres.
      exists st',
        (evs0 ++ [LogRetry (attempt + 1) i (RETRY_DELAY_MS_BASE * (attempt + 1)) err;
                  Sleep (RETRY_DELAY_MS_BASE * (attempt + 1))] ++ evs),
        (S k).
      split; [exact Hrun|].
      split; [rewrite Htr, <- !app_assoc; reflexivity|].
      split; [lia|].
      rewrite !retries_app, !sleeps_app, Hq1, Hq2, Hret, Hsl.
      replace (attempt + 1 + 1) with (S (attempt + 1)) by lia.
      split; [reflexivity|]. split; [reflexivity|].
      replace (S attempt) with (attempt + 1) by lia.
      destruct (chunkSucceedsFrom E i (attempt + 1)).
      * destruct Hres as (H1 & H2 & status & Hst & Hin).
        repeat split; try assumption. exists status. split; [exact Hst|].
        apply in_or_app. right. apply in_or_app. right. exact Hin.
      * destruct Hres as (H0 & H1 & H2 & err' & Hin).
        repeat split; try assumption; try lia. exists err'.
        apply in_or_app. right. apply in_or_app. right. exact Hin.
  - destruct (tryChunk_success _ _ _ _ Ht) as [Hs Hstatus]. rewrite Hs. cbn [orb].
    eexists. exists (evs0 ++ [LogUploaded (i + 1) total status]), 0.
    split; [reflexivity|]. cbn [trace successCount failedChunks seq map].
    rewrite retries_app, sleeps_app, Hq1, Hq2.
    repeat split; try reflexivity; try lia.
    exists status. split; [exact Hstatus|].
    apply in_or_app. right. left. reflexivity.
Qed.

(** The chunks of [indices], one after the other. *)
Lemma forChunks_spec (fuel : nat) (indices : list nat) :
  S MAX_RETRIES_PER_CHUNK <= fuel ->
  forall st,
  exists st' evs,
    forChunks E fuel total indices st = Some st' /\
    trace st' = trace st ++ evs /\
    successCount st'
    = successCount st + length (filter (chunkSucceeds E) indices) /\
    failedChunks st'
    = failedChunks st
      ++ map (fun i => i + 1)
             (filter (fun i => negb (chunkSucceeds E i)) indices) /\
    forall i, In i indices ->
      if chunkSucceeds E i then
        exists status, (status = 200 \/ status = 208)%Z /\
                       In (LogUploaded (i + 1) total status) evs
      else exists err, In (LogGivingUp i err) evs.
Proof.
  intros Hfuel. induction indices as [|i rest IH]; intros st.
  - exists st, []. cbn. rewrite !app_nil_r, Nat.add_0_r. repeat split.
    intros i [].
  - cbn [forChunks].
    destruct (uploadChunk_spec i fuel 0 st) as [st1 [evs1 [k H1]]];
      [unfold MAX_RETRIES_PER_CHUNK; lia | lia |].
    destruct H1 as (Hrun & Htr & _ & _ & _ & Hres).
    fold (chunkSucceeds E i) in Hres.
    rewrite Hrun.
    destruct (IH st1) as [st' [evs [Hrun' [Htr' [Hsc [Hfc Hin]]]]]].
    exists st', (evs1 ++ evs).
    split; [exact Hrun'|]. split; [rewrite Htr', Htr, app_assoc; reflexivity|].
    cbn [filter].
    destruct (chunkSucceeds E i) eqn:Hi; cbn [negb length map].
    + destruct Hres as (H1 & H2 & status & Hst & Hlog).
      rewrite Hsc, Hfc, H1, H2. split; [lia|]. split; [reflexivity|].
      intros j [<-|Hj].
      * rewrite Hi. exists status. split; [exact Hst|].
        apply in_or_app. left. exact Hlog.
      * specialize (Hin j Hj). destruct (chunkSucceeds E j).
        -- destruct Hin as [s [Hs Hl]]. exists s. split; [exact Hs|].
           apply in_or_app. right. exact Hl.
        -- destruct Hin as [e Hl]. exists e. apply in_or_app. right. exact Hl.
    + destruct Hres as (_ & H1 & H2 & err & Hlog).
      rewrite Hsc, Hfc, H1, H2, <- app_assoc. split; [lia|].
      split; [reflexivity|].
      intros j [<-|Hj].
      * rewrite Hi. exists err. apply in_or_app. left. exact Hlog.
      * specialize (Hin j Hj). destruct (chunkSucceeds E j).
        -- destruct Hin as [s [Hs Hl]]. exists s. split; [exact Hs|].
           apply in_or_app. right. exact Hl.
        -- destruct Hin as [e Hl]. exists e. apply in_or_app. right. exact Hl.
Qed.

End UploadLoop.

Lemma filter_all_length (f : nat -> bool) (l : list nat) :
  length (filter f l) = length l <-> forall i, In i l -> f i = true.
Proof.
  induction l as [|x l IH]; cbn [filter length In].
  - split; [intros _ i [] | reflexivity].
  - pose proof (filter_length_le f l) as Hle.
    destruct (f x) eqn:Hx; cbn [length].
    + split.
      * intros H i [<-|Hi]; [exact Hx|]. apply IH; [lia | exact Hi].
      * intros H. f_equal. apply IH. intros i Hi. apply H. now right.
    + split; [lia|]. intros H. specialize (H x (or_introl eq_refl)). congruence.
Qed.



(** The whole run on [envFlaky]: two retries for chunk 0, five for chunk 1,
    which is then given up while chunk 0 stays uploaded. *)
Example reuploadChunks_flaky :
  reuploadChunks envFlaky 6
  = Some (UploadThrow FailedToUploadAll,
          [LogUploading 2;
           Post 0; LogNetworkError 0 (lit "ECONNRESET");
           LogRetry 1 0 750 (UploadFailed 0 (-1)); Sleep 750;
           Post 0; LogRetry 2 0 1500 (UploadFailed 0 503); Sleep 1500;
           Post 0; LogUploaded 1 2 208;
           Post 1; LogRetry 1 1 750 (UploadFailed 1 429); Sleep 750;
           Post 1; LogRetry 2 1 1500 (UploadFailed 1 429); Sleep 1500;
           Post 1; LogRetry 3 1 2250 (UploadFailed 1 429); Sleep 2250;
           Post 1; LogRetry 4 1 3000 (UploadFailed 1 429); Sleep 3000;
           Post 1; LogRetry 5 1 3750 (UploadFailed 1 429); Sleep 3750;
           Post 1; LogGivingUp 1 (UploadFailed 1 429);
           LogOnlyUploaded 1 2 [2]]).
Proof. vm_compute. reflexivity. Qed.

(** C5 (as amended).  [reuploadChunks] returns exactly when every chunk has
    succeeded, where a POST answered 200 or 208 is a success; otherwise it
    throws after logging the full list of the chunks that failed, each
    named by its index plus one, the numbering of the
    "Chunk k/total uploaded" lines. *)
Theorem reuploadChunks_result (E : UploadEnv) (fuel total : nat) :
  S MAX_RETRIES_PER_CHUNK <= fuel ->
  existsSync E = true ->
  totalChunks E = Some total ->
  exists res tr,
    reuploadChunks E fuel = Some (res, tr) /\
    (res = UploadReturn <-> forall i, i < total -> chunkSucceeds E i = true) /\
    (res <> UploadReturn ->
     res = UploadThrow FailedToUploadAll /\
     exists tr',
       tr = tr' ++ [LogOnlyUploaded
                      (length (filter (chunkSucceeds E) (seq 0 total))) total
                      (map (fun i => i + 1)
                           (filter (fun i => negb (chunkSucceeds E i))
                                   (seq 0 total)))]) /\
    (forall i, i < total -> chunkSucceeds E i = true ->
       exists status, (status = 200 \/ status = 208)%Z /\
                      In (LogUploaded (i + 1) total status) tr).
Proof.
  intros Hfuel Hfile Htotal. unfold reuploadChunks.
  rewrite Hfile, Htotal. cbn [negb].
  destruct (forChunks_spec E total fuel (seq 0 total) Hfuel
              {| successCount := 0; failedChunks := [];
                 trace := [LogUploading total] |})
    as [st [evs [Hrun [Htr [Hsc [Hfc Hin]]]]]].
  rewrite Hrun. cbn [successCount failedChunks trace Nat.add app] in Hsc, Hfc, Htr.
  assert (Hall : successCount st = total <->
                 forall i, i < total -> chunkSucceeds E i = true).
  { rewrite Hsc. rewrite <- (length_seq total 0) at 2.
    rewrite filter_all_length. split; intros H i Hi; apply H.
    - apply in_seq. lia.
    - apply in_seq in Hi. lia. }
  assert (Hlogs : forall tail i, i < total -> chunkSucceeds E i = true ->
            exists status, (status = 200 \/ status = 208)%Z /\
                           In (LogUploaded (i + 1) total status) (trace st ++ tail)).
  { intros tail i Hi Hs. specialize (Hin i). rewrite Hs in Hin.
    destruct Hin as [status [Hst Hl]]; [apply in_seq; lia|].
    exists status. split; [exact Hst|]. rewrite Htr.
    apply in_or_app. left. right. exact Hl. }
  destruct (Nat.eqb_spec (successCount st) total) as [Heq|Hne].
  - eexists. eexists. split; [reflexivity|]. split; [|split].
    + split; [intros _; now apply Hall | reflexivity].
    + intros H. contradiction.
    + apply Hlogs.
  - eexists. eexists. split; [reflexivity|]. split; [|split].
    + split; [discriminate|]. intros H. apply Hall in H. contradiction.
    + intros _. split; [reflexivity|]. exists (trace st). now rewrite Hsc, Hfc.
    + apply Hlogs.
Qed.

Lemma reuploadChunks_result_witness :
  reuploadChunks envChunk2Fails 6
  = Some (UploadThrow FailedToUploadAll,
          traceChunk2Fails ++ [LogOnlyUploaded 3 4 [3]]) /\
  In (LogUploaded 1 4 200) traceChunk2Fails /\
  In (LogUploaded 2 4 200) traceChunk2Fails /\
  In (LogUploaded 4 4 200) traceChunk2Fails.
Proof.
  destruct (reuploadChunks_result envChunk2Fails 6 4 (le_n 6) eq_refl eq_refl)
    as [res [tr [Hrun [_ [Hthrow _]]]]].
  assert (Hc : reuploadChunks envChunk2Fails 6
               = Some (UploadThrow FailedToUploadAll,
                       traceChunk2Fails ++ [LogOnlyUploaded 3 4 [3]]))
    by (vm_compute; reflexivity).
  assert (Hres : res <> UploadReturn).
  { intros ->. rewrite Hc in Hrun. discriminate Hrun. }
  destruct (Hthrow Hres) as [-> [tr' ->]].
  split; [exact Hc|]. unfold traceChunk2Fails. cbn. auto 40.
Defined.

(** Chunk 2 (the third) is the one that fails; the list that is reported
    holds 3, not 2. *)
Lemma reuploadChunks_counterexample :
  (forall i, i < 4 -> chunkSucceeds envChunk2Fails i = negb (i =? 2)) /\
  reuploadChunks envChunk2Fails 6
  = Some (UploadThrow FailedToUploadAll,
          traceChunk2Fails ++ [LogOnlyUploaded 3 4 [3]]) /\
  In (LogGivingUp 2 (UploadFailed 2 500)) traceChunk2Fails /\
  ~ (exists tr n total,
       reuploadChunks envChunk2Fails 6
       = Some (UploadThrow FailedToUploadAll,
               tr ++ [LogOnlyUploaded n total [2]])).
Proof.
  assert (Hc : reuploadChunks envChunk2Fails 6
               = Some (UploadThrow FailedToUploadAll,
                       traceChunk2Fails ++ [LogOnlyUploaded 3 4 [3]]))
    by (vm_compute; reflexivity).
  split; [|split; [exact Hc | split]].
  - intros i Hi. destruct i as [|[|[|[|i]]]]; reflexivity.
  - unfold traceChunk2Fails. cbn. auto 40.
  - intros [tr [n [total H]]]. rewrite Hc in H.
    assert (Htr : traceChunk2Fails ++ [LogOnlyUploaded 3 4 [3]]
                  = tr ++ [LogOnlyUploaded n total [2]]) by congruence.
    apply app_inj_tail in Htr. destruct Htr as [_ Hlast]. discriminate Hlast.
Qed.

(** C6 (as amended).  A chunk whose proof does not validate takes the same
    retry path as any other error: it is never POSTed, it is retried
    [MAX_RETRIES_PER_CHUNK] times with the delays 750, 1500, 2250, 3000 and
    3750 ms, and only then is it recorded as failed. *)
Theorem uploadChunk_validation_failure (E : UploadEnv) (fuel total i : nat)
    (st : UploadState) :
  S MAX_RETRIES_PER_CHUNK <= fuel ->
  (forall a, a <= MAX_RETRIES_PER_CHUNK ->
             attemptOutcome E i a = ValidationFails) ->
  uploadChunk E fuel total i 0 st
  = Some {| successCount := successCount st;
            failedChunks := failedChunks st ++ [i + 1];
            trace := trace st ++
              [LogRetry 1 i 750 (UnableToValidate i); Sleep 750;
               LogRetry 2 i 1500 (UnableToValidate i); Sleep 1500;
               LogRetry 3 i 2250 (UnableToValidate i); Sleep 2250;
               LogRetry 4 i 3000 (UnableToValidate i); Sleep 3000;
               LogRetry 5 i 3750 (UnableToValidate i); Sleep 3750;
               LogGivingUp i (UnableToValidate i)] |}.
Proof.
  unfold MAX_RETRIES_PER_CHUNK. intros Hfuel Hbad.
  do 6 (destruct fuel as [|fuel]; [lia|]).
  assert (Htry : forall a, a <= 5 -> tryChunk E i a = ([], inl (UnableToValidate i))).
  { intros a Ha. unfold tryChunk. now rewrite (Hbad a Ha). }
  cbn [uploadChunk].
  rewrite (Htry 0) by lia. cbn [Nat.add Nat.ltb Nat.leb MAX_RETRIES_PER_CHUNK].
  rewrite (Htry 1) by lia. cbn [Nat.add Nat.ltb Nat.leb MAX_RETRIES_PER_CHUNK].
  rewrite (Htry 2) by lia. cbn [Nat.add Nat.ltb Nat.leb MAX_RETRIES_PER_CHUNK].
  rewrite (Htry 3) by lia. cbn [Nat.add Nat.ltb Nat.leb MAX_RETRIES_PER_CHUNK].
  rewrite (Htry 4) by lia. cbn [Nat.add Nat.ltb Nat.leb MAX_RETRIES_PER_CHUNK].
  rewrite (Htry 5) by lia. cbn [Nat.add Nat.ltb Nat.leb MAX_RETRIES_PER_CHUNK].
  cbn [successCount failedChunks trace].
  rewrite <- !app_assoc. reflexivity.
Qed.

Lemma uploadChunk_validation_failure_witness :
  uploadChunk envInvalid 6 1 0 0
    {| successCount := 0; failedChunks := []; trace := [LogUploading 1] |}
  = Some {| successCount := 0;
            failedChunks := [1];
            trace := [LogUploading 1;
                      LogRetry 1 0 750 (UnableToValidate 0); Sleep 750;
                      LogRetry 2 0 1500 (UnableToValidate 0); Sleep 1500;
                      LogRetry 3 0 2250 (UnableToValidate 0); Sleep 2250;
                      LogRetry 4 0 3000 (UnableToValidate 0); Sleep 3000;
                      LogRetry 5 0 3750 (UnableToValidate 0); Sleep 3750;
                      LogGivingUp 0 (UnableToValidate 0)] |}.
Proof.
  exact (uploadChunk_validation_failure envInvalid 6 1 0
           {| successCount := 0; failedChunks := []; trace := [LogUploading 1] |}
           (le_n 6) (fun a _ => eq_refl)).
Defined.

(** The only chunk never validates: the run retries it five times, sleeping
    before each retry, before it gives the chunk up. *)
Lemma reuploadChunks_validation_counterexample :
  exists tr,
    reuploadChunks envInvalid 6 = Some (UploadThrow FailedToUploadAll, tr) /\
    posts tr = [] /\
    retries tr = [1; 2; 3; 4; 5] /\
    sleeps tr = [750; 1500; 2250; 3000; 3750] /\
    ~ (retries tr = [] /\ sleeps tr = []).
Proof.
  eexists. split; [vm_compute; reflexivity|].
  split; [reflexivity|]. split; [reflexivity|]. split; [reflexivity|].
  intros [H _]. discriminate H.
Qed.

(** * Further properties of the chunk fetch *)

(** X1.  Whatever [fetchChunkFromPeer] returns is a window of exactly the
    bytes decoded from a string [chunk] field, with
    [end - start + 1 = len buf], and whose end is the [offset] field when
    there is one.  It throws "chunk missing" exactly when the body is falsy
    or its [chunk] is not a string. *)
Theorem fetchChunkFromPeer_window (W : World) (p : jsstring) (absPos : Z)
    (clk : nat) :
  (forall w, fetchChunkFromPeer W p absPos clk = Return w ->
     (end_ w - start w + 1 = len (buf w))%Z /\
     exists joffset jsize chunk,
       get_chunk W clk p absPos = Resolved (Obj joffset jsize (JString chunk)) /\
       buf w = base64UrlToBuffer W chunk /\
       (defined joffset = true -> BigInt joffset = inr (end_ w))) /\
  (fetchChunkFromPeer W p absPos clk = Throw ChunkMissing <->
   match get_chunk W clk p absPos with
   | Rejected _ => False
   | Resolved Falsy => True
   | Resolved (Obj _ _ (JString _)) => False
   | Resolved (Obj _ _ _) => True
   end).
Proof.
  unfold fetchChunkFromPeer.
  destruct (get_chunk W clk p absPos) as [msg|[|jo js jc]].
  - split; [discriminate | split; [discriminate | contradiction]].
  - split; [discriminate | tauto].
  - destruct jc as [| | | | |chunk|]; try (split; [discriminate | tauto]).
    destruct (defined jo) eqn:Hd.
    + destruct (BigInt jo) as [e|respEnd] eqn:Hb.
      * split; [discriminate|]. split; [|contradiction].
        intros H. injection H as ->. destruct jo; try discriminate Hd;
          cbn in Hb; try discriminate Hb;
          destruct (StringToBigInt _); discriminate Hb.
      * split; [|split; [discriminate | contradiction]].
        intros w H. injection H as <-. cbn [buf start end_].
        split; [lia|]. exists jo, js, chunk. auto.
    + split; [|split; [discriminate | contradiction]].
      intros w H. injection H as <-. cbn [buf start end_].
      split; [lia|]. exists jo, js, chunk.
      split; [reflexivity|]. split; [reflexivity|]. intros Hd'. congruence.
Qed.

Lemma fetchChunkFromPeer_window_witness :
  exists w,
    fetchChunkFromPeer worldFallback peerC 42 0 = Return w /\
    buf w = [x01; x02; x03] /\ start w = 42%Z /\ end_ w = 44%Z /\
    (end_ w - start w + 1 = len (buf w))%Z.
Proof.
  eexists. split; [vm_compute; reflexivity|].
  split; [reflexivity|]. split; [reflexivity|]. split; [reflexivity|].
  exact (proj1 (proj1 (fetchChunkFromPeer_window worldFallback peerC 42 0)
                  _ eq_refl)).
Defined.

Section ChunkFallback.

Variable W : World.
Variable absPos : Z.

Lemma fetchChunk_loop_first (pre : list jsstring) :
  forall (p : jsstring) (post : list jsstring) (errors es : list JsError)
         (clk : nat) (w : Window),
  ChunkAllFailed W absPos pre clk es ->
  fetchChunkFromPeer W p absPos (clk + length pre) = Return w ->
  fetchChunk_loop W (pre ++ p :: post) absPos errors clk
  = (Return w, clk + length pre + 1).
Proof.
  induction pre as [|q pre IH]; intros p post errors es clk w Hfail Hp.
  - cbn [app fetchChunk_loop length] in *. rewrite Nat.add_0_r in Hp.
    rewrite Hp. f_equal. lia.
  - inversion Hfail as [|q' rest' clk' e es' Hq Hrest]; subst.
    cbn [app fetchChunk_loop]. rewrite Hq.
    rewrite (IH p post (errors ++ [e]) es' (S clk) w Hrest).
    + f_equal. cbn [length]. lia.
    + rewrite <- Hp. f_equal. cbn [length]. lia.
Qed.

Lemma fetchChunk_loop_exhausted (peers : list jsstring) :
  forall (errors es : list JsError) (clk : nat),
  ChunkAllFailed W absPos peers clk es ->
  fetchChunk_loop W peers absPos errors clk
  = (Throw (AllPeersFailed absPos (errors ++ es)), clk + length peers).
Proof.
  induction peers as [|q peers IH]; intros errors es clk Hfail;
    inversion Hfail as [|q' rest' clk' e es' Hq Hrest]; subst;
    cbn [fetchChunk_loop length].
  - now rewrite app_nil_r, Nat.add_0_r.
  - rewrite Hq, (IH (errors ++ [e]) es' (S clk) Hrest), <- app_assoc.
    cbn [app]. f_equal. lia.
Qed.

Lemma fetchChunk_loop_all_failed (peers : list jsstring) :
  forall (errors : list JsError) (clk : nat) (e : JsError) (clk' : nat),
  fetchChunk_loop W peers absPos errors clk = (Throw e, clk') ->
  exists es, ChunkAllFailed W absPos peers clk es.
Proof.
  induction peers as [|q peers IH]; intros errors clk e clk' H;
    cbn [fetchChunk_loop] in H.
  - exists []. constructor.
  - destruct (fetchChunkFromPeer W q absPos clk) as [w|err] eqn:Hq;
      [discriminate|].
    destruct (IH _ _ _ _ H) as [es Hes]. exists (err :: es). now constructor.
Qed.

Lemma ChunkAllFailed_length (peers : list jsstring) (clk : nat)
    (es : list JsError) :
  ChunkAllFailed W absPos peers clk es -> length es = length peers.
Proof. induction 1; cbn [length]; congruence. Qed.

(** X2.  [fetchChunk] asks the peers in list order and returns the window
    of the first peer that does not fail, after one request per peer tried;
    it throws exactly when every peer has failed, and the error then names
    the position and carries one error per peer, in order. *)
Theorem fetchChunk_fallback (peers : list jsstring) (clk : nat) :
  (forall pre p post es w,
      peers = pre ++ p :: post ->
      ChunkAllFailed W absPos pre clk es ->
      fetchChunkFromPeer W p absPos (clk + length pre) = Return w ->
      fetchChunk W peers absPos clk = (Return w, clk + length pre + 1)) /\
  (forall e clk',
      fetchChunk W peers absPos clk = (Throw e, clk') <->
      exists es, ChunkAllFailed W absPos peers clk es /\
                 length es = length peers /\
                 e = AllPeersFailed absPos es /\ clk' = clk + length peers).
Proof.
  split.
  - intros pre p post es w -> Hfail Hp.
    exact (fetchChunk_loop_first pre p post [] es clk w Hfail Hp).
  - intros e clk'. unfold fetchChunk. split.
    + intros H.
      destruct (fetchChunk_loop_all_failed peers [] clk e clk' H) as [es Hes].
      exists es. split; [exact Hes|].
      split; [exact (ChunkAllFailed_length _ _ _ Hes)|].
      rewrite (fetchChunk_loop_exhausted peers [] es clk Hes) in H.
      cbn [app] in H. split; congruence.
    + intros [es [Hes [_ [-> ->]]]].
      exact (fetchChunk_loop_exhausted peers [] es clk Hes).
Qed.

End ChunkFallback.

Lemma fetchChunk_fallback_witness :
  fetchChunk worldFallback [peerA; peerB; peerC] 42 0
  = (Return {| buf := [x01; x02; x03]; start := 42; end_ := 44 |}, 3).
Proof.
  apply (proj1 (fetchChunk_fallback worldFallback 42 [peerA; peerB; peerC] 0)
           [peerA; peerB] peerC []
           [TransportError (lit "ECONNREFUSED"); ChunkMissing]).
  - reflexivity.
  - constructor; [reflexivity|]. constructor; [reflexivity | constructor].
  - vm_compute. reflexivity.
Defined.

(** * Further properties of the stream assembly *)

Lemma assembleLoop_no_throw (W : World) (allPeers : list jsstring) (size : Z)
    (fuel : nat) :
  (forall pos c, exists w c', fetchChunk W allPeers pos c = (Return w, c')) ->
  forall st e, assembleLoop W fuel allPeers size st <> Some (Throw e).
Proof.
  intros Hok. induction fuel as [|fuel IH]; intros st e.
  - cbn [assembleLoop]. destruct (bytesAccum st <? size)%Z; discriminate.
  - rewrite assembleLoop_S.
    destruct (bytesAccum st <? size)%Z; [|discriminate].
    destruct (Hok (nextPos st) (clock st)) as [w [c' Hf]]. rewrite Hf.
    cbv zeta.
    destruct (bytesAccum st
              + len (usableSlice size (bytesAccum st) (nextPos st) w) >=? size)%Z;
      [discriminate | apply IH].
Qed.

(** X3.  End to end: when the offset lookup succeeds with a size that is
    not negative and every chunk request is answered by a window that holds
    the requested position and carries the payload's bytes,
    [fetchArweaveChunks] returns within [size] iterations and the one file
    it writes holds exactly the payload from the start offset on, [size]
    bytes long. *)
Theorem fetchArweaveChunks_honest (W : World) (P : Z -> byte) (opts : Opts)
    (info : OffsetInfo) (clk fuel : nat) :
  fetchTxOffset W (txid opts) (allPeersOf opts) 0 = (Return info, clk) ->
  (0 <= size info)%Z ->
  (forall pos c, exists w c',
      fetchChunk W (allPeersOf opts) pos c = (Return w, c') /\
      contains w pos /\ truthful P w) ->
  Z.to_nat (size info) <= fuel ->
  fetchArweaveChunks W fuel opts
  = Some (Return {| res_outfile := path_resolve W (outfileOf opts);
                    res_bytes := size info |},
          [(outfileOf opts,
            payloadSlice P (startOffset info) (Z.to_nat (size info)))]).
Proof.
  intros Hoff Hsize Hhonest Hfuel.
  assert (Hdet : forall pos c w c',
             fetchChunk W (allPeersOf opts) pos c = (Return w, c') ->
             contains w pos /\ truthful P w).
  { intros pos c w c' Hf. destruct (Hhonest pos c) as [w2 [c2 [Hf2 H]]].
    rewrite Hf in Hf2. injection Hf2 as -> _. exact H. }
  destruct (assembleLoop_total W (allPeersOf opts) (size info)
              (fun pos c w c' Hf => proj1 (Hdet pos c w c' Hf))
              fuel (initLoop info clk))
    as [res [Hres Hpost]].
  { cbn [initLoop bytesAccum]. rewrite Z.sub_0_r. exact Hfuel. }
  destruct res as [st|e].
  2:{ exfalso. revert Hres. apply assembleLoop_no_throw.
      intros pos c. destruct (Hhonest pos c) as [w [c' [Hf _]]]. eauto. }
  cbn [initLoop bytesAccum] in Hpost. destruct Hpost as [_ Hacc].
  specialize (Hacc Hsize).
  destruct (assembleLoop_run W (allPeersOf opts) (size info) fuel _ _ Hres)
    as [its [_ [Hb [Ha [Hs [Hf _]]]]]].
  cbn [initLoop buffers bytesAccum nextPos app] in Hb, Ha, Hs.
  rewrite Z.add_0_l in Ha.
  assert (Hall : Forall (fun it => contains (it_window it) (it_nextPos it) /\
                                   truthful P (it_window it)) its).
  { rewrite Forall_forall in *. intros it Hin.
    destruct (Hf it Hin) as [c0 [c1 Hfetch]]. exact (Hdet _ _ _ _ Hfetch). }
  destruct (steps_honest (size info) P its 0 _ Hs Hall) as [_ [_ Hcat]].
  unfold fetchArweaveChunks. rewrite Hoff, Hres. unfold finishAssembly.
  rewrite Hb, Hcat, <- Ha, Hacc.
  unfold len. rewrite payloadSlice_length, Z2Nat.id by exact Hsize.
  rewrite Z.eqb_refl. reflexivity.
Qed.

Lemma worldGrid_fetch_any (p : jsstring) (rest : list jsstring) (pos : Z)
    (c : nat) :
  fetchChunk worldGrid (p :: rest) pos c = fetchChunk worldGrid [peerA] pos c.
Proof.
  unfold fetchChunk. cbn [fetchChunk_loop]. now rewrite !worldGrid_chunk.
Qed.

Lemma fetchArweaveChunks_honest_witness :
  fetchArweaveChunks worldGrid 7 opts0
  = Some (Return {| res_outfile := lit "/work/SIaSQkaJ.bin"; res_bytes := 7 |},
          [(lit "SIaSQkaJ.bin", [x00; x00; x01; x01; x01; x00; x00])]).
Proof.
  assert (Hpeers : allPeersOf opts0
                   = lit "https://arweave.net" :: tl (allPeersOf opts0))
    by (vm_compute; reflexivity).
  apply (fetchArweaveChunks_honest worldGrid gridPayload opts0
           {| peer := lit "https://arweave.net"; offset := 7; size := 7 |} 1 7).
  - vm_compute. reflexivity.
  - cbn [size]. lia.
  - intros pos c. rewrite Hpeers, worldGrid_fetch_any.
    destruct (fetchChunk worldGrid [peerA] pos c) as [[w|e] c'] eqn:Hf.
    + exists w, c'. split; [reflexivity|]. exact (worldGrid_honest pos c w c' Hf).
    + exfalso. unfold fetchChunk in Hf. cbn [fetchChunk_loop] in Hf.
      rewrite worldGrid_chunk in Hf. discriminate Hf.
  - vm_compute. lia.
Defined.

(** * The peer list *)

Lemma jsstring_eqb_eq (a b : jsstring) : jsstring_eqb a b = true <-> a = b.
Proof.
  unfold jsstring_eqb. destruct (list_eq_dec N.eq_dec a b); split;
    congruence.
Qed.

Lemma existsb_jsstring_In (x : jsstring) (l : list jsstring) :
  existsb (jsstring_eqb x) l = true <-> In x l.
Proof.
  rewrite existsb_exists. split.
  - intros [y [Hy Heq]]. apply jsstring_eqb_eq in Heq. now subst.
  - intros H. exists x. split; [exact H | now apply jsstring_eqb_eq].
Qed.

Lemma dedupe_In (l : list jsstring) :
  forall seen x, In x (dedupe seen l) <-> In x l /\ ~ In x seen.
Proof.
  induction l as [|y l IH]; intros seen x; cbn [dedupe In].
  - tauto.
  - destruct (existsb (jsstring_eqb y) seen) eqn:Hy.
    + apply existsb_jsstring_In in Hy. rewrite IH. split.
      * tauto.
      * intros [[->|H] Hn]; [contradiction | tauto].
    + assert (Hny : ~ In y seen).
      { intros H. apply existsb_jsstring_In in H. congruence. }
      cbn [In]. rewrite IH. cbn [In]. split.
      * intros [->|[H Hn]]; [tauto|]. split; [tauto|]. tauto.
      * intros [[->|H] Hn]; [tauto|].
        destruct (list_eq_dec N.eq_dec y x) as [->|Hne]; [tauto|].
        right. split; [exact H|]. intros [Heq|Hs]; [congruence | tauto].
Qed.

Lemma dedupe_NoDup (l : list jsstring) : forall seen, NoDup (dedupe seen l).
Proof.
  induction l as [|y l IH]; intros seen; cbn [dedupe]; [constructor|].
  destruct (existsb (jsstring_eqb y) seen); [apply IH|].
  constructor; [|apply IH].
  rewrite dedupe_In. cbn [In]. tauto.
Qed.

Lemma dedupe_app (a : list jsstring) :
  forall seen b,
  dedupe seen (a ++ b)
  = dedupe seen a ++ dedupe (rev (dedupe seen a) ++ seen) b.
Proof.
  induction a as [|x a IH]; intros seen b; cbn [app dedupe]; [reflexivity|].
  destruct (existsb (jsstring_eqb x) seen); [apply IH|].
  cbn [app rev]. rewrite IH, <- app_assoc. reflexivity.
Qed.

Lemma normaliseAll_app (a b : list jsstring) :
  normaliseAll (a ++ b) = normaliseAll a ++ normaliseAll b.
Proof.
  induction a as [|p a IH]; cbn [app normaliseAll]; [reflexivity|].
  destruct (normalisePeer p); cbn [app]; now rewrite IH.
Qed.

Lemma normaliseAll_In (l : list jsstring) (u : jsstring) :
  In u (normaliseAll l) <-> exists p, In p l /\ normalisePeer p = Some u.
Proof.
  induction l as [|q l IH]; cbn [normaliseAll In].
  - split; [contradiction | intros [p [[] _]]].
  - destruct (normalisePeer q) as [v|] eqn:Hq; cbn [In]; rewrite ?IH; split.
    + intros [<-|[p [Hp Hn]]]; [exists q; auto | exists p; auto].
    + intros [p [[<-|Hp] Hn]]; [left; congruence | right; exists p; auto].
    + intros [p [Hp Hn]]. exists p; auto.
    + intros [p [[<-|Hp] Hn]]; [congruence | exists p; auto].
Qed.

(** X4.  The peer list that [fetchArweaveChunks] uses has no duplicates; it
    holds exactly the normalised forms of the built-in peers, the caller's
    peers and the peers written out in the function; none of its members is
    empty; and it always begins with the four built-in peers in their own
    order, so that a caller's peer is never tried before them. *)
Theorem allPeersOf_spec (opts : Opts) :
  NoDup (allPeersOf opts) /\
  (forall u,
      In u (allPeersOf opts) <->
      exists p,
        In p (BUILTIN_PEERS
              ++ match peers opts with Some l => l | None => [] end
              ++ peers_const) /\
        normalisePeer p = Some u) /\
  Forall (fun u => u <> []) (allPeersOf opts) /\
  exists rest, allPeersOf opts = BUILTIN_PEERS ++ rest.
Proof.
  unfold allPeersOf. split; [apply dedupe_NoDup|]. split; [|split].
  - intros u. rewrite dedupe_In, normaliseAll_In, <- app_assoc.
    cbn [In]. tauto.
  - apply Forall_forall. intros u Hu.
    apply dedupe_In in Hu. destruct Hu as [Hu _].
    apply normaliseAll_In in Hu. destruct Hu as [p [_ Hp]].
    exact (normalisePeer_nonempty p u Hp).
  - rewrite <- app_assoc, normaliseAll_app, dedupe_app.
    replace (dedupe [] (normaliseAll BUILTIN_PEERS)) with BUILTIN_PEERS
      by (vm_compute; reflexivity).
    eexists. reflexivity.
Qed.

(** * Base64url *)

(** X5.  [base64UrlToBuffer] hands [Buffer.from] the input with every [-]
    turned into [+] and every [_] into [/], followed by at most three [=]
    that bring the length to a multiple of four (none when it already is
    one); no [-] or [_] is left. *)
Theorem base64UrlToBuffer_padding (W : World) (s : jsstring) :
  exists k,
    k <= 3 /\
    base64UrlToBuffer W s
    = Buffer_from_base64 W (map standardUnit s ++ repeat 61%N k) /\
    (length s + k) mod 4 = 0 /\
    (length s mod 4 = 0 -> k = 0) /\
    Forall (fun c => c <> 45%N /\ c <> 95%N) (map standardUnit s ++ repeat 61%N k).
Proof.
  assert (Hmap : map (fun c => if (c =? 95)%N then 47%N else c)
                     (map (fun c => if (c =? 45)%N then 43%N else c) s)
                 = map standardUnit s).
  { rewrite map_map. apply map_ext. intros c. unfold standardUnit.
    destruct (N.eqb_spec c 45) as [->|H45]; [reflexivity|].
    reflexivity. }
  assert (Hstd : Forall (fun c => c <> 45%N /\ c <> 95%N) (map standardUnit s)).
  { apply Forall_forall. intros c Hc. apply in_map_iff in Hc.
    destruct Hc as [d [<- _]]. unfold standardUnit.
    destruct (N.eqb_spec d 45) as [->|H45]; [split; discriminate|].
    destruct (N.eqb_spec d 95) as [->|H95]; [split; discriminate|].
    split; assumption. }
  assert (Hpad : forall k, Forall (fun c => c <> 45%N /\ c <> 95%N)
                                  (map standardUnit s ++ repeat 61%N k)).
  { intros k. apply Forall_app. split; [exact Hstd|].
    apply Forall_forall. intros c Hc. apply repeat_spec in Hc. subst c.
    split; discriminate. }
  unfold base64UrlToBuffer. rewrite Hmap, length_map.
  pose proof (Nat.mod_upper_bound (length s) 4 ltac:(discriminate)) as Hlt.
  pose proof (Nat.div_mod_eq (length s) 4) as Hdm.
  destruct (length s mod 4) as [|[|[|[|r]]]] eqn:Hr; [| | | |lia].
  - exists 0. cbn [Nat.eqb negb repeat]. rewrite app_nil_r in *.
    repeat split; try lia.
    + rewrite Nat.add_0_r. exact Hr.
    + specialize (Hpad 0). now rewrite app_nil_r in Hpad.
  - exists 3. cbn [Nat.eqb negb]. repeat split; try lia; try apply Hpad.
    rewrite Hdm. replace (4 * (length s / 4) + 1 + 3)
      with (0 + (length s / 4 + 1) * 4) by lia.
    now rewrite Nat.Div0.mod_add.
  - exists 2. cbn [Nat.eqb negb]. repeat split; try lia; try apply Hpad.
    rewrite Hdm. replace (4 * (length s / 4) + 2 + 2)
      with (0 + (length s / 4 + 1) * 4) by lia.
    now rewrite Nat.Div0.mod_add.
  - exists 1. cbn [Nat.eqb negb]. repeat split; try lia; try apply Hpad.
    rewrite Hdm. replace (4 * (length s / 4) + 3 + 1)
      with (0 + (length s / 4 + 1) * 4) by lia.
    now rewrite Nat.Div0.mod_add.
Qed.

(** * Further properties of the uploader *)

Lemma posts_app (a b : list Event) : posts (a ++ b) = posts a ++ posts b.
Proof. apply flat_map_app. Qed.

Lemma StronglySorted_le_app (l1 l2 : list nat) :
  StronglySorted le l1 -> StronglySorted le l2 ->
  (forall x y, In x l1 -> In y l2 -> x <= y) ->
  StronglySorted le (l1 ++ l2).
Proof.
  induction l1 as [|a l1 IH]; intros H1 H2 Hle; cbn [app]; [exact H2|].
  inversion H1 as [|? ? Hs Hall]; subst. constructor.
  - apply IH; [exact Hs | exact H2|]. intros x y Hx Hy. apply Hle; [now right | exact Hy].
  - apply Forall_app. split; [exact Hall|].
    apply Forall_forall. intros y Hy. apply Hle; [now left | exact Hy].
Qed.

Lemma StronglySorted_le_repeat (i n : nat) : StronglySorted le (repeat i n).
Proof.
  induction n as [|n IH]; cbn [repeat]; constructor; [exact IH|].
  apply Forall_forall. intros y Hy. apply repeat_spec in Hy. lia.
Qed.

Lemma delay_sum_bound (a k : nat) :
  a + k <= MAX_RETRIES_PER_CHUNK ->
  list_sum (map (fun n => RETRY_DELAY_MS_BASE * n) (seq (a + 1) k))
  <= 15 * RETRY_DELAY_MS_BASE.
Proof.
  unfold MAX_RETRIES_PER_CHUNK. intros H.
  destruct k as [|[|[|[|[|[|k]]]]]]; try lia;
    destruct a as [|[|[|[|[|[|a]]]]]]; try lia;
    cbn [seq map Nat.add]; unfold list_sum; cbn [fold_right]; lia.
Qed.

(** When segment [j] POSTs chunk [first + j] only, and at most [b] times, no
    chunk is POSTed more than [b] times in the whole. *)
Lemma segments_count (b : nat) (segs : list (list Event)) :
  forall first,
  (forall j seg, nth_error segs j = Some seg ->
                 exists m, m <= b /\ posts seg = repeat (first + j) m) ->
  forall i,
    count_occ Nat.eq_dec (posts (concat segs)) i <= b /\
    (i < first -> count_occ Nat.eq_dec (posts (concat segs)) i = 0).
Proof.
  induction segs as [|seg segs IH]; intros first Hsegs i.
  - cbn. split; [lia | reflexivity].
  - cbn [concat]. rewrite posts_app, count_occ_app.
    destruct (Hsegs 0 seg eq_refl) as [m [Hm Hp]].
    rewrite Nat.add_0_r in Hp. rewrite Hp.
    assert (Htail : forall j s, nth_error segs j = Some s ->
              exists m', m' <= b /\ posts s = repeat (S first + j) m').
    { intros j s Hj. destruct (Hsegs (S j) s Hj) as [m' [Hm' Hp']].
      exists m'. split; [exact Hm'|]. rewrite Hp'. f_equal. lia. }
    destruct (IH (S first) Htail i) as [Hle Hzero].
    destruct (Nat.eq_dec i first) as [->|Hne].
    + rewrite count_occ_repeat_eq by reflexivity.
      rewrite Hzero by lia. split; lia.
    + rewrite count_occ_repeat_neq by exact Hne.
      split; [exact Hle|]. intros Hlt. apply Hzero. lia.
Qed.

Section UploadBounds.

Variable E : UploadEnv.
Variable total : nat.

Lemma tryChunk_posts (i attempt : nat) :
  posts (fst (tryChunk E i attempt)) = []
  \/ posts (fst (tryChunk E i attempt)) = [i].
Proof.
  unfold tryChunk. destruct (attemptOutcome E i attempt) as [| |[status|msg]];
    cbn; auto;
    destruct ((_ =? 200)%Z || (_ =? 208)%Z); cbn; auto.
Qed.

(** The POSTs of one chunk. *)
Lemma uploadChunk_posts (i : nat) (fuel : nat) :
  forall attempt st st',
  attempt <= MAX_RETRIES_PER_CHUNK ->
  uploadChunk E fuel total i attempt st = Some st' ->
  exists evs n,
    trace st' = trace st ++ evs /\
    posts evs = repeat i n /\
    attempt + n <= S MAX_RETRIES_PER_CHUNK.
Proof.
  induction fuel as [|fuel IH]; intros attempt st st' Ha Hrun; [discriminate|].
  cbn [uploadChunk] in Hrun.
  pose proof (tryChunk_posts i attempt) as Hp.
  destruct (tryChunk E i attempt) as [evs0 [err|status]]; cbn [fst] in Hp.
  - destruct (Nat.ltb_spec MAX_RETRIES_PER_CHUNK (attempt + 1)) as [Hlast|Hmore].
    + injection Hrun as <-. cbn [trace].
      exists (evs0 ++ [LogGivingUp i err]).
      rewrite posts_app. cbn [posts flat_map app]. rewrite app_nil_r.
      destruct Hp as [-> | ->]; [exists 0 | exists 1];
        (split; [reflexivity|]; split; [reflexivity | lia]).
    + apply IH in Hrun; [|lia]. cbn [trace] in Hrun.
      destruct Hrun as [evs [n [Htr [Hposts Hn]]]].
      exists (evs0
              ++ [LogRetry (attempt + 1) i (RETRY_DELAY_MS_BASE * (attempt + 1)) err;
                  Sleep (RETRY_DELAY_MS_BASE * (attempt + 1))] ++ evs).
      rewrite !posts_app, Hposts. cbn [posts flat_map app].
      destruct Hp as [-> | ->]; [exists n | exists (S n)];
        (split; [rewrite Htr, <- !app_assoc; reflexivity|];
         split; [reflexivity | lia]).
  - injection Hrun as <-. cbn [trace].
    exists (evs0 ++ [LogUploaded (i + 1) total status]).
    rewrite posts_app. cbn [posts flat_map app]. rewrite app_nil_r.
    destruct Hp as [-> | ->]; [exists 0 | exists 1];
      (split; [reflexivity|]; split; [reflexivity | lia]).
Qed.

(** The POSTs and the sleeps of the chunks [first .. first + n - 1]. *)
Lemma forChunks_bounds (fuel : nat) (n : nat) :
  S MAX_RETRIES_PER_CHUNK <= fuel ->
  forall first st,
  exists st' evs,
    forChunks E fuel total (seq first n) st = Some st' /\
    trace st' = trace st ++ evs /\
    length (posts evs) <= S MAX_RETRIES_PER_CHUNK * n /\
    list_sum (sleeps evs) <= 15 * RETRY_DELAY_MS_BASE * n /\
    StronglySorted le (posts evs) /\
    Forall (fun i => first <= i < first + n) (posts evs).
Proof.
  intros Hfuel. induction n as [|n IH]; intros first st.
  - exists st, []. cbn. rewrite app_nil_r.
    repeat split; try lia; constructor.
  - cbn [seq forChunks].
    destruct (uploadChunk_spec E total first fuel 0 st) as [st1 [evs1 [k H1]]];
      [unfold MAX_RETRIES_PER_CHUNK; lia | lia |].
    destruct H1 as (Hrun & Htr & Hk & _ & Hsl & _).
    destruct (uploadChunk_posts first fuel 0 st st1 ltac:(lia) Hrun)
      as [evs1' [m [Htr' [Hposts Hm]]]].
    assert (Heq : evs1' = evs1).
    { rewrite Htr in Htr'. now apply app_inv_head in Htr'. }
    subst evs1'. rewrite Hrun.
    destruct (IH (S first) st1) as [st' [evs [Hrun' [Htr2 [Hlen [Hsum [Hsorted Hrange]]]]]]].
    exists st', (evs1 ++ evs).
    split; [exact Hrun'|]. split; [rewrite Htr2, Htr, app_assoc; reflexivity|].
    rewrite posts_app, sleeps_app, list_sum_app, length_app, Hposts, repeat_length.
    pose proof (delay_sum_bound 0 k Hk) as Hd. cbn [Nat.add] in Hd, Hsl.
    rewrite Hsl.
    rewrite Forall_forall in Hrange.
    split; [unfold MAX_RETRIES_PER_CHUNK in *; lia|]. split; [lia|]. split.
    + apply StronglySorted_le_app;
        [apply StronglySorted_le_repeat | exact Hsorted |].
      intros x y Hx Hy. apply repeat_spec in Hx. specialize (Hrange y Hy). lia.
    + apply Forall_app. split; apply Forall_forall; intros x Hx.
      * apply repeat_spec in Hx. lia.
      * specialize (Hrange x Hx). lia.
Qed.

(** The trace of the chunks [first .. first + n - 1], cut into one segment
    per chunk. *)
Lemma forChunks_segments (fuel : nat) (n : nat) :
  S MAX_RETRIES_PER_CHUNK <= fuel ->
  forall first st,
  exists st' segs,
    forChunks E fuel total (seq first n) st = Some st' /\
    trace st' = trace st ++ concat segs /\
    length segs = n /\
    forall j seg,
      nth_error segs j = Some seg ->
      exists m,
        m <= S MAX_RETRIES_PER_CHUNK /\
        posts seg = repeat (first + j) m /\
        list_sum (sleeps seg) <= 15 * RETRY_DELAY_MS_BASE.
Proof.
  intros Hfuel. induction n as [|n IH]; intros first st.
  - exists st, []. cbn [seq forChunks concat length]. rewrite app_nil_r.
    repeat split. intros [|j] seg Hj; discriminate Hj.
  - cbn [seq forChunks].
    destruct (uploadChunk_spec E total first fuel 0 st) as [st1 [evs1 [k H1]]];
      [unfold MAX_RETRIES_PER_CHUNK; lia | lia |].
    destruct H1 as (Hrun & Htr & Hk & _ & Hsl & _).
    destruct (uploadChunk_posts first fuel 0 st st1 ltac:(lia) Hrun)
      as [evs1' [m [Htr' [Hposts Hm]]]].
    assert (Heq : evs1' = evs1).
    { rewrite Htr in Htr'. now apply app_inv_head in Htr'. }
    subst evs1'. rewrite Hrun.
    destruct (IH (S first) st1) as [st' [segs [Hrun' [Htr2 [Hlen Hsegs]]]]].
    exists st', (evs1 :: segs).
    split; [exact Hrun'|].
    split; [cbn [concat]; rewrite Htr2, Htr, app_assoc; reflexivity|].
    split; [cbn [length]; now rewrite Hlen|].
    intros [|j] seg Hj; cbn [nth_error] in Hj.
    + assert (Hseg : seg = evs1) by congruence. subst seg.
      exists m. split; [lia|]. split; [now rewrite Nat.add_0_r|].
      pose proof (delay_sum_bound 0 k Hk) as Hd. cbn [Nat.add] in Hd, Hsl.
      now rewrite Hsl.
    + destruct (Hsegs j seg Hj) as [m' [Hm' [Hp' Hs']]].
      exists m'. split; [exact Hm'|]. split; [|exact Hs'].
      rewrite Hp'. f_equal. lia.
Qed.

(** Chunks that all go through at the first pass. *)
Lemma forChunks_first_try (fuel : nat) (indices : list nat) :
  (forall i, In i indices -> isSuccess (attemptOutcome E i 0) = true) ->
  forall st,
  exists st' evs,
    forChunks E (S fuel) total indices st = Some st' /\
    trace st' = trace st ++ evs /\
    successCount st' = successCount st + length indices /\
    failedChunks st' = failedChunks st /\
    posts evs = indices /\ sleeps evs = [] /\ retries evs = [].
Proof.
  induction indices as [|i rest IH]; intros Hall st.
  - exists st, []. cbn. rewrite app_nil_r, Nat.add_0_r. repeat split.
  - cbn [forChunks uploadChunk].
    assert (Hi : isSuccess (attemptOutcome E i 0) = true)
      by (apply Hall; now left).
    unfold tryChunk, isSuccess in *.
    destruct (attemptOutcome E i 0) as [| |[status|msg]]; try discriminate Hi.
    rewrite Hi.
    match goal with
    | |- context [forChunks E (S fuel) total rest ?s] =>
        destruct (IH (fun j Hj => Hall j (or_intror Hj)) s)
          as [st' [evs [Hrun [Htr [Hsc [Hfc [Hp [Hs Hr]]]]]]]]
    end.
    cbn [trace successCount failedChunks] in Htr, Hsc, Hfc.
    exists st', ([Post i; LogUploaded (i + 1) total status] ++ evs).
    split; [exact Hrun|].
    split; [rewrite Htr, <- !app_assoc; reflexivity|].
    rewrite posts_app, sleeps_app, retries_app, Hp, Hs, Hr.
    cbn [length]. repeat split; try assumption; lia.
Qed.

End UploadBounds.

(** X6.  A run of [reuploadChunks] over [total] chunks ends, and its trace
    is the opening line, one segment per chunk in index order, and the
    closing line.  The segment of chunk [i] POSTs chunk [i] only, at most
    six times, and sleeps at most 15 * 750 = 11250 ms; so no chunk is
    POSTed more than six times in the run, the POSTs come in ascending
    order of the chunk index (the run never goes back to an earlier chunk)
    and only chunks below [total] are POSTed. *)
Theorem reuploadChunks_bounds (E : UploadEnv) (fuel total : nat) :
  S MAX_RETRIES_PER_CHUNK <= fuel ->
  existsSync E = true ->
  totalChunks E = Some total ->
  exists res tr segs tail,
    reuploadChunks E fuel = Some (res, tr) /\
    tr = LogUploading total :: concat segs ++ tail /\
    length segs = total /\
    posts tail = [] /\ sleeps tail = [] /\
    (forall i seg,
        nth_error segs i = Some seg ->
        exists n,
          n <= S MAX_RETRIES_PER_CHUNK /\
          posts seg = repeat i n /\
          list_sum (sleeps seg) <= 15 * RETRY_DELAY_MS_BASE) /\
    (forall i, count_occ Nat.eq_dec (posts tr) i <= S MAX_RETRIES_PER_CHUNK) /\
    length (posts tr) <= S MAX_RETRIES_PER_CHUNK * total /\
    list_sum (sleeps tr) <= 15 * RETRY_DELAY_MS_BASE * total /\
    StronglySorted le (posts tr) /\
    Forall (fun i => i < total) (posts tr).
Proof.
  intros Hfuel Hfile Htotal. unfold reuploadChunks.
  rewrite Hfile, Htotal. cbn [negb].
  set (st0 := {| successCount := 0; failedChunks := [];
                 trace := [LogUploading total] |}).
  destruct (forChunks_bounds E total fuel total Hfuel 0 st0)
    as [st [evs [Hrun [Htr [Hlen [Hsum [Hsorted Hrange]]]]]]].
  destruct (forChunks_segments E total fuel total Hfuel 0 st0)
    as [st' [segs [Hrun' [Htr' [Hsegs Hseg]]]]].
  assert (Hst : st' = st) by congruence. subst st'.
  assert (Hevs : evs = concat segs).
  { rewrite Htr in Htr'. now apply app_inv_head in Htr'. }
  subst evs. rewrite Hrun. cbn [trace app] in Htr.
  assert (Hposts : forall tail, posts tail = [] -> sleeps tail = [] ->
            posts (trace st ++ tail) = posts (concat segs) /\
            sleeps (trace st ++ tail) = sleeps (concat segs)).
  { intros tail Hp Hs. rewrite Htr.
    change (LogUploading total :: concat segs)
      with ([LogUploading total] ++ concat segs).
    rewrite !posts_app, !sleeps_app, Hp, Hs, !app_nil_r. split; reflexivity. }
  assert (Hcount : forall i,
            count_occ Nat.eq_dec (posts (concat segs)) i
            <= S MAX_RETRIES_PER_CHUNK).
  { intros i. apply (segments_count (S MAX_RETRIES_PER_CHUNK) segs 0).
    intros j seg Hj. destruct (Hseg j seg Hj) as [m [Hm [Hp _]]]. eauto. }
  assert (Hrange' : Forall (fun i => i < total) (posts (concat segs))).
  { apply Forall_forall. intros i Hi.
    rewrite Forall_forall in Hrange. specialize (Hrange i Hi). lia. }
  destruct (successCount st =? total);
    match goal with
    | |- context [Some (?r, trace st ++ ?tl)] =>
        exists r, (trace st ++ tl), segs, tl;
        destruct (Hposts tl eq_refl eq_refl) as [-> ->]
    end;
    (split; [reflexivity|]);
    (split; [now rewrite Htr|]);
    (split; [exact Hsegs|]);
    (split; [reflexivity|]); (split; [reflexivity|]);
    (split; [exact Hseg|]); (split; [exact Hcount|]);
    (split; [exact Hlen|]); (split; [exact Hsum|]);
    (split; [exact Hsorted | exact Hrange']).
Qed.

Lemma reuploadChunks_bounds_witness :
  exists res tr segs tail,
    reuploadChunks envFlaky 6 = Some (res, tr) /\
    tr = LogUploading 2 :: concat segs ++ tail /\
    length segs = 2 /\
    posts tail = [] /\ sleeps tail = [] /\
    (forall i seg,
        nth_error segs i = Some seg ->
        exists n,
          n <= S MAX_RETRIES_PER_CHUNK /\
          posts seg = repeat i n /\
          list_sum (sleeps seg) <= 15 * RETRY_DELAY_MS_BASE) /\
    (forall i, count_occ Nat.eq_dec (posts tr) i <= S MAX_RETRIES_PER_CHUNK) /\
    length (posts tr) <= S MAX_RETRIES_PER_CHUNK * 2 /\
    list_sum (sleeps tr) <= 15 * RETRY_DELAY_MS_BASE * 2 /\
    StronglySorted le (posts tr) /\
    Forall (fun i => i < 2) (posts tr).
Proof.
  exact (reuploadChunks_bounds envFlaky 6 2 (le_n 6) eq_refl eq_refl).
Defined.

(** X7.  When the first POST of every chunk is answered 200 or 208, as on
    a second run after a full success, [reuploadChunks] returns after
    exactly one POST per chunk, in index order, with no retry and no
    sleep. *)
Theorem reuploadChunks_first_try (E : UploadEnv) (fuel total : nat) :
  existsSync E = true ->
  totalChunks E = Some total ->
  (forall i, i < total -> isSuccess (attemptOutcome E i 0) = true) ->
  exists tr,
    reuploadChunks E (S fuel) = Some (UploadReturn, tr) /\
    posts tr = seq 0 total /\ sleeps tr = [] /\ retries tr = [].
Proof.
  intros Hfile Htotal Hall. unfold reuploadChunks.
  rewrite Hfile, Htotal. cbn [negb].
  destruct (forChunks_first_try E total fuel (seq 0 total)) with
    (st := {| successCount := 0; failedChunks := [];
              trace := [LogUploading total] |})
    as [st [evs [Hrun [Htr [Hsc [_ [Hp [Hs Hr]]]]]]]].
  { intros i Hi. apply Hall. apply in_seq in Hi. lia. }
  rewrite Hrun. cbn [trace successCount Nat.add app] in Htr, Hsc.
  rewrite length_seq in Hsc. rewrite Hsc, Nat.eqb_refl.
  eexists. split; [reflexivity|]. rewrite Htr.
  change (LogUploading total :: evs) with ([LogUploading total] ++ evs).
  rewrite !posts_app, !sleeps_app, !retries_app, Hp, Hs, Hr.
  cbn. rewrite !app_nil_r. repeat split.
Qed.

(** * The command line *)

Lemma trim_In (s : jsstring) (c : N) : In c (trim s) -> In c s.
Proof.
  unfold trim. intros H.
  destruct (trimEnd_prefix (trimStart s)) as [post Hpost].
  destruct (trimStart_suffix s) as [pre Hpre].
  rewrite Hpre, Hpost. apply in_or_app. right. apply in_or_app. now left.
Qed.

Lemma trim_trim (s : jsstring) : trim (trim s) = trim s.
Proof.
  destruct (trim s) as [|a r] eqn:Ht; [reflexivity|].
  destruct (trim_shape s a r Ht) as [Ha [t [c [Htc Hc]]]].
  exact (trim_fixed a r t c Htc Ha Hc).
Qed.

Lemma splitComma_no_comma (s : jsstring) :
  Forall (fun part => ~ In 44%N part) (splitComma s).
Proof.
  induction s as [|c r IH]; cbn [splitComma].
  - constructor; [intros [] | constructor].
  - destruct (N.eqb_spec c 44) as [->|Hc].
    + constructor; [intros [] | exact IH].
    + destruct (splitComma r) as [|h t].
      * constructor; [|constructor]. intros [H|[]]. congruence.
      * inversion IH as [|? ? Hh Ht]; subst. constructor; [|exact Ht].
        intros [H|H]; [congruence | contradiction].
Qed.

(** The peers that one [--peers] value contributes. *)
Lemma peersOfList_wellformed (value : jsstring) :
  Forall (fun p => p <> [] /\ trim p = p /\ ~ In 44%N p /\
                   normalisePeer p <> None)
         (peersOfList value).
Proof.
  unfold peersOfList. apply Forall_forall. intros p Hp.
  apply filter_In in Hp. destruct Hp as [Hp Hne].
  apply in_map_iff in Hp. destruct Hp as [part [<- Hpart]].
  pose proof (splitComma_no_comma value) as Hall.
  rewrite Forall_forall in Hall. specialize (Hall part Hpart).
  assert (Hnil : trim part <> []) by (destruct (trim part); [discriminate | discriminate]).
  split; [exact Hnil|]. split; [apply trim_trim|]. split.
  - intros Hin. apply Hall. now apply trim_In.
  - unfold normalisePeer. rewrite trim_trim.
    destruct (trim part); [contradiction | discriminate].
Qed.

(** Whatever every update of the loop preserves, the loop preserves. *)
Lemma parseLoop_invariant (Inv : ArgState -> Prop) (A : jsstring -> Prop) :
  (forall st v, Inv st -> v <> [] ->
     Inv {| arg_peers := arg_peers st ++ peersOfList v;
            arg_maxPeers := arg_maxPeers st; arg_timeout := arg_timeout st;
            arg_verbose := arg_verbose st; positionals := positionals st |}) ->
  (forall st v, Inv st ->
     Inv {| arg_peers := arg_peers st;
            arg_maxPeers := parseIntOr v (arg_maxPeers st);
            arg_timeout := arg_timeout st;
            arg_verbose := arg_verbose st; positionals := positionals st |}) ->
  (forall st v, Inv st ->
     Inv {| arg_peers := arg_peers st; arg_maxPeers := arg_maxPeers st;
            arg_timeout := parseIntOr v (arg_timeout st);
            arg_verbose := arg_verbose st; positionals := positionals st |}) ->
  (forall st, Inv st ->
     Inv {| arg_peers := arg_peers st; arg_maxPeers := arg_maxPeers st;
            arg_timeout := arg_timeout st;
            arg_verbose := true; positionals := positionals st |}) ->
  (forall st a, Inv st -> A a -> notOption a ->
     Inv {| arg_peers := arg_peers st; arg_maxPeers := arg_maxPeers st;
            arg_timeout := arg_timeout st; arg_verbose := arg_verbose st;
            positionals := positionals st ++ [a] |}) ->
  forall n args st st',
    length args <= n -> Forall A args -> Inv st ->
    parseLoop args st = Some st' -> Inv st'.
Proof.
  intros Hpeers Hmax Htime Hverb Hpos.
  induction n as [|n IH]; intros args st st' Hlen HA Hinv Hrun.
  - destruct args; [|cbn in Hlen; lia]. cbn in Hrun. now injection Hrun as <-.
  - destruct args as [|a rest]; [cbn in Hrun; now injection Hrun as <-|].
    cbn [length] in Hlen. inversion HA as [|? ? Ha HArest]; subst.
    cbn [parseLoop] in Hrun.
    destruct (jsstring_eqb a (lit "--peers")) eqn:E1.
    { destruct rest as [|[|c l] rest']; try discriminate.
      inversion HArest; subst.
      refine (IH rest' _ st' _ _ _ Hrun); [cbn [length] in Hlen; lia | assumption |].
      apply Hpeers; [exact Hinv | discriminate]. }
    destruct (jsstring_eqb a (lit "--maxPeers")) eqn:E2.
    { destruct rest as [|v rest']; [now injection Hrun as <-|].
      inversion HArest; subst.
      refine (IH rest' _ st' _ _ _ Hrun); [cbn [length] in Hlen; lia | assumption |].
      now apply Hmax. }
    destruct (jsstring_eqb a (lit "--timeout")) eqn:E3.
    { destruct rest as [|v rest']; [now injection Hrun as <-|].
      inversion HArest; subst.
      refine (IH rest' _ st' _ _ _ Hrun); [cbn [length] in Hlen; lia | assumption |].
      now apply Htime. }
    destruct (jsstring_eqb a (lit "--verbose") || jsstring_eqb a (lit "-v")) eqn:E4.
    { refine (IH rest _ st' _ _ _ Hrun); [lia | assumption |]. now apply Hverb. }
    refine (IH rest _ st' _ _ _ Hrun); [lia | assumption |].
    apply Hpos; [exact Hinv | exact Ha |]. unfold notOption. auto.
Qed.

(** X8.  Every peer that [parseArgs] collects from [--peers] values is
    non-empty, carries no white space at either end and no comma, and is
    accepted by [normalisePeer]: empty items such as in ["a,,b"] are
    dropped. *)
Theorem parseArgs_peers (argv : list jsstring) (o : CliOpts) :
  parseArgs argv = Parsed o ->
  Forall (fun p => p <> [] /\ trim p = p /\ ~ In 44%N p /\
                   normalisePeer p <> None)
         (cli_peers o).
Proof.
  unfold parseArgs. intros H.
  destruct (_ || _ || _); [discriminate|].
  destruct (parseLoop (skipn 2 argv) _) as [st|] eqn:Hrun; [|discriminate].
  assert (Hinv : Forall (fun p => p <> [] /\ trim p = p /\ ~ In 44%N p /\
                                  normalisePeer p <> None) (arg_peers st)).
  { apply (parseLoop_invariant
             (fun st => Forall (fun p => p <> [] /\ trim p = p /\ ~ In 44%N p /\
                                         normalisePeer p <> None) (arg_peers st))
             (fun _ => True))
      with (n := length (skipn 2 argv)) (args := skipn 2 argv)
           (st := {| arg_peers := []; arg_maxPeers := 500; arg_timeout := 15000;
                     arg_verbose := false; positionals := [] |});
      cbn [arg_peers]; auto.
    - intros st0 v Hst _. apply Forall_app. split; [exact Hst|].
      apply peersOfList_wellformed.
    - apply Forall_forall. auto. }
  destruct (positionals st); [discriminate|]. injection H as <-. exact Hinv.
Qed.

Lemma parseArgs_peers_witness :
  Forall (fun p => p <> [] /\ trim p = p /\ ~ In 44%N p /\
                   normalisePeer p <> None)
         [lit "a:1984"; lit "https://b/"].
Proof.
  apply (parseArgs_peers argvExample
           {| cli_peers := [lit "a:1984"; lit "https://b/"];
              cli_maxPeers := 12; cli_timeout := 15000; cli_verbose := true;
              cli_txid := lit "TX"; cli_outfile := lit "TX.bin" |}).
  vm_compute. reflexivity.
Defined.

Lemma parseIntOr_nonzero (v : jsstring) (current : Z) :
  current <> 0%Z -> parseIntOr v current <> 0%Z.
Proof.
  unfold parseIntOr. intros Hc. destruct (parseInt10 v) as [z|]; [|exact Hc].
  destruct (Z.eqb_spec z 0); [exact Hc | assumption].
Qed.

(** X9.  The options that [parseArgs] returns are usable as they are:
    [maxPeers] and [timeout] are never zero (a missing, zero or non-numeric
    value leaves the previous one, 500 and 15000 at the start), the output
    file name is never empty, and the transaction id is one of the
    arguments and none of the option names. *)
Theorem parseArgs_usable (argv : list jsstring) (o : CliOpts) :
  parseArgs argv = Parsed o ->
  cli_maxPeers o <> 0%Z /\ cli_timeout o <> 0%Z /\
  cli_outfile o <> [] /\
  In (cli_txid o) (skipn 2 argv) /\ isFlag (cli_txid o) = false.
Proof.
  unfold parseArgs. intros H.
  destruct (_ || existsb (jsstring_eqb (lit "-h")) (skipn 2 argv)
            || existsb (jsstring_eqb (lit "--help")) (skipn 2 argv)) eqn:Hhelp;
    [discriminate|].
  apply orb_false_iff in Hhelp. destruct Hhelp as [Hhelp Hh2].
  apply orb_false_iff in Hhelp. destruct Hhelp as [_ Hh1].
  destruct (parseLoop (skipn 2 argv) _) as [st|] eqn:Hrun; [|discriminate].
  assert (Hinv : arg_maxPeers st <> 0%Z /\ arg_timeout st <> 0%Z /\
                 Forall (fun a => In a (skipn 2 argv) /\ notOption a)
                        (positionals st)).
  { apply (parseLoop_invariant
             (fun st => arg_maxPeers st <> 0%Z /\ arg_timeout st <> 0%Z /\
                        Forall (fun a => In a (skipn 2 argv) /\ notOption a)
                               (positionals st))
             (fun a => In a (skipn 2 argv)))
      with (n := length (skipn 2 argv)) (args := skipn 2 argv)
           (st := {| arg_peers := []; arg_maxPeers := 500; arg_timeout := 15000;
                     arg_verbose := false; positionals := [] |});
      cbn [arg_maxPeers arg_timeout positionals]; auto.
    - intros st0 v [H1 [H2 H3]]. split; [now apply parseIntOr_nonzero | auto].
    - intros st0 v [H1 [H2 H3]]. split; [exact H1|].
      split; [now apply parseIntOr_nonzero | exact H3].
    - intros st0 a [H1 [H2 H3]] Ha Hno. split; [exact H1|]. split; [exact H2|].
      apply Forall_app. split; [exact H3|]. constructor; [auto | constructor].
    - apply Forall_forall. auto.
    - split; [discriminate|]. split; [discriminate | constructor]. }
  destruct Hinv as [Hmax [Htime Hposl]].
  destruct (positionals st) as [|txid more]; [discriminate|].
  injection H as <-. cbn [cli_maxPeers cli_timeout cli_outfile cli_txid].
  inversion Hposl as [|? ? [Hin Hno] _]; subst.
  split; [exact Hmax|]. split; [exact Htime|]. split; [|split; [exact Hin|]].
  - destruct more as [|[|c out] more']; try discriminate;
      (destruct txid; discriminate).
  - destruct Hno as [E1 [E2 [E3 E4]]]. apply orb_false_iff in E4.
    destruct E4 as [E4 E5].
    assert (Hh : forall f, existsb (jsstring_eqb f) (skipn 2 argv) = false ->
                           jsstring_eqb txid f = false).
    { intros f Hf. destruct (jsstring_eqb txid f) eqn:Heq; [|reflexivity].
      apply jsstring_eqb_eq in Heq. subst f.
      apply existsb_jsstring_In in Hin. congruence. }
    unfold isFlag. cbn [map existsb].
    rewrite E1, E2, E3, E4, E5, (Hh _ Hh1), (Hh _ Hh2). reflexivity.
Qed.

Lemma parseArgs_usable_witness :
  parseArgs argvExample
  = Parsed {| cli_peers := [lit "a:1984"; lit "https://b/"];
              cli_maxPeers := 12; cli_timeout := 15000; cli_verbose := true;
              cli_txid := lit "TX"; cli_outfile := lit "TX.bin" |} /\
  isFlag (lit "TX") = false.
Proof.
  assert (Hrun : parseArgs argvExample
                 = Parsed {| cli_peers := [lit "a:1984"; lit "https://b/"];
                             cli_maxPeers := 12; cli_timeout := 15000;
                             cli_verbose := true;
                             cli_txid := lit "TX"; cli_outfile := lit "TX.bin" |})
    by (vm_compute; reflexivity).
  split; [exact Hrun|].
  exact (proj2 (proj2 (proj2 (proj2 (parseArgs_usable argvExample _ Hrun))))).
Defined.

(** * The bundle lookup *)

(** X10.  [checkTx] never fails and asks Irys only when the Arweave probe
    did not succeed.  It reports [arweave] exactly when the HEAD request is
    answered with a 2xx status and a content length that [parseInt] reads
    as positive; it reports [irys] only with a [FINALIZED] status and a
    truthy bundle id, which it passes on with the seeds; in every other
    case the bundle id is [null]. *)
Theorem checkTx_decision (C : CheckEnv) (id : jsstring) :
  tx_id (fst (checkTx C id)) = id /\
  (source (fst (checkTx C id)) = SrcArweave <->
   exists status header n,
     head_arweave C id = HeadResolved status (Some header) /\
     (200 <= status < 300)%Z /\
     parseInt10 header = Some n /\ (0 < n)%Z) /\
  (source (fst (checkTx C id)) = SrcArweave ->
   snd (checkTx C id) = [HeadArweave id]) /\
  (source (fst (checkTx C id)) = SrcIrys ->
   truthy (bundle_id (fst (checkTx C id))) = true /\
   exists data,
     get_irys_status C id = IrysResolved (Some data) /\
     irys_status data = JString (lit "FINALIZED") /\
     bundle_id (fst (checkTx C id)) = irys_bundleTxId data /\
     seeds (fst (checkTx C id)) = irys_seededTo data) /\
  (source (fst (checkTx C id)) <> SrcIrys ->
   bundle_id (fst (checkTx C id)) = JNull /\
   seeds (fst (checkTx C id)) = JUndefined).
Proof.
  assert (Harw : checkTxArweaveExists C id = true <->
                 exists status header n,
                   head_arweave C id = HeadResolved status (Some header) /\
                   (200 <= status < 300)%Z /\
                   parseInt10 header = Some n /\ (0 < n)%Z).
  { unfold checkTxArweaveExists.
    destruct (head_arweave C id) as [|status header].
    - split; [discriminate | intros (? & ? & ? & H & _); discriminate].
    - split.
      + intros H. apply andb_true_iff in H. destruct H as [Hst Hlen].
        apply andb_true_iff in Hst.
        destruct header as [[|c h]|]; try (cbn in Hlen; discriminate).
        destruct (parseInt10 (c :: h)) as [n|] eqn:Hn; [|discriminate].
        exists status, (c :: h), n. repeat split; try reflexivity; try lia.
        exact Hn.
      + intros (st & hd & n & Heq & Hst & Hn & Hpos).
        injection Heq as -> ->.
        destruct hd as [|c h]; [cbn in Hn; discriminate|].
        rewrite Hn. apply andb_true_iff. split; [|lia].
        apply andb_true_iff. split; lia. }
  unfold checkTx.
  destruct (checkTxArweaveExists C id) eqn:Ha; cbn [fst snd tx_id source bundle_id seeds].
  - split; [reflexivity|]. split; [split; [intros _; now apply Harw | reflexivity]|].
    split; [reflexivity|]. split; [discriminate|]. auto.
  - assert (Hno : ~ exists status header n,
                     head_arweave C id = HeadResolved status (Some header) /\
                     (200 <= status < 300)%Z /\
                     parseInt10 header = Some n /\ (0 < n)%Z).
    { intros H. apply Harw in H. discriminate H. }
    unfold checkTxIrysBundle.
    destruct (get_irys_status C id) as [|[data|]];
      cbn [fst snd tx_id source bundle_id seeds];
      try (split; [reflexivity|]; split; [split; [discriminate | tauto]|];
           split; [discriminate|]; split; [discriminate | auto]).
    destruct (irys_status data) as [| | | | |st|] eqn:Hst;
      cbn [fst snd tx_id source bundle_id seeds];
      try (split; [reflexivity|]; split; [split; [discriminate | tauto]|];
           split; [discriminate|]; split; [discriminate | auto]).
    destruct (jsstring_eqb st (lit "FINALIZED")) eqn:Hfin; cbn [andb];
      [destruct (truthy (irys_bundleTxId data)) eqn:Htr|];
      cbn [fst snd tx_id source bundle_id seeds];
      try (split; [reflexivity|]; split; [split; [discriminate | tauto]|];
           split; [discriminate|]; split; [discriminate | auto]).
    apply jsstring_eqb_eq in Hfin. subst st.
    split; [reflexivity|]. split; [split; [discriminate | tauto]|].
    split; [discriminate|]. split; [|intros H; contradiction].
    intros _. split; [exact Htr|]. exists data. auto.
Qed.

(** * Availability polling *)

Section Polling.

Variable probe : nat -> option Z.
Variable interval : Z.
Variable maxAttempts : Z.

Lemma pollCheck_spec (fuel : nat) :
  forall attempts tr,
  attempts < Z.to_nat (Z.max 1 maxAttempts) ->
  Z.to_nat (Z.max 1 maxAttempts) - attempts <= fuel ->
  exists ok n,
    attempts < n <= Z.to_nat (Z.max 1 maxAttempts) /\
    pollCheck fuel probe interval maxAttempts attempts tr
    = Some (ok, tr ++ pollTrace interval (S attempts) n ok) /\
    (forall k, attempts < k < n -> ~ available probe k) /\
    (ok = true -> available probe n) /\
    (ok = false -> ~ available probe n /\ n = Z.to_nat (Z.max 1 maxAttempts)).
Proof.
  induction fuel as [|fuel IH]; intros attempts tr Hatt Hfuel; [lia|].
  cbn [pollCheck].
  assert (Hav : match probe (S attempts) with
                | Some status => (status =? 200)%Z
                | None => false
                end = true <-> available probe (S attempts)).
  { unfold available. destruct (probe (S attempts)) as [status|].
    - rewrite Z.eqb_eq. split; congruence.
    - split; discriminate. }
  destruct (match probe (S attempts) with
            | Some status => (status =? 200)%Z
            | None => false
            end) eqn:Hp.
  - exists true, (S attempts). unfold pollTrace.
    rewrite Nat.sub_diag. cbn [seq flat_map app].
    rewrite <- app_assoc. cbn [app].
    repeat split; try lia; try (intros; lia); try discriminate.
    intros _. now apply Hav.
  - assert (Hnot : ~ available probe (S attempts)).
    { intros H. apply Hav in H. discriminate H. }
    destruct (Z.geb_spec (Z.of_nat (S attempts)) maxAttempts) as [Hlast|Hmore].
    + exists false, (S attempts). unfold pollTrace.
      rewrite Nat.sub_diag. cbn [seq flat_map app].
      repeat split; try lia; try (intros; lia); try discriminate;
        try (intros; exact Hnot).
    + destruct (IH (S attempts)
                  ((tr ++ [Probe (S attempts)]) ++ [LogDot; SetTimeout interval]))
        as [ok [n [Hn [Hrun [Hbefore [Hok Hko]]]]]]; [lia | lia |].
      exists ok, n. split; [lia|]. split.
      * rewrite Hrun. f_equal. f_equal. unfold pollTrace.
        replace (n - S attempts) with (S (n - S (S attempts))) by lia.
        cbn [seq flat_map]. rewrite <- !app_assoc. reflexivity.
      * split; [|split; assumption].
        intros k Hk. destruct (Nat.eq_dec k (S attempts)) as [->|Hne];
          [exact Hnot | apply Hbefore; lia].
Qed.

End Polling.

(** X11.  [pollArweave] probes at most [max(1, maxAttempts)] times, waits
    [interval] between two probes and never after the last, resolves at
    the first probe that is answered with status 200 (a rejected request
    or another status counts as "not yet"), and rejects after exactly
    [max(1, maxAttempts)] probes when none is. *)
Theorem pollArweave_spec (probe : nat -> option Z) (interval maxAttempts : Z)
    (fuel : nat) :
  Z.to_nat (Z.max 1 maxAttempts) <= fuel ->
  exists ok n,
    1 <= n <= Z.to_nat (Z.max 1 maxAttempts) /\
    pollArweave fuel probe interval maxAttempts
    = Some (ok, pollTrace interval 1 n ok) /\
    (forall k, 1 <= k < n -> ~ available probe k) /\
    (ok = true -> available probe n) /\
    (ok = false -> ~ available probe n /\ n = Z.to_nat (Z.max 1 maxAttempts)).
Proof.
  intros Hfuel.
  destruct (pollCheck_spec probe interval maxAttempts fuel 0 [])
    as [ok [n [Hn [Hrun [Hbefore [Hok Hko]]]]]]; [lia | lia |].
  exists ok, n. split; [lia|]. split; [exact Hrun|].
  split; [|split; assumption]. intros k Hk. apply Hbefore. lia.
Qed.

Lemma pollArweave_spec_witness :
  pollArweave 60 probeThird 10000 60
  = Some (true, [Probe 1; LogDot; SetTimeout 10000;
                 Probe 2; LogDot; SetTimeout 10000;
                 Probe 3; LogAvailable]).
Proof.
  destruct (pollArweave_spec probeThird 10000 60 60) as [ok [n H]];
    [vm_compute; lia|].
  vm_compute. reflexivity.
Defined.

(** * The stand-alone uploader *)

Section ScriptAgainstModule.

Variable E : UploadEnv.
Variable total : nat.

Lemma tryChunk_no_giving_up (i attempt : nat) :
  existsb isGivingUp (fst (tryChunk E i attempt)) = false.
Proof.
  unfold tryChunk. destruct (attemptOutcome E i attempt) as [| |[status|msg]];
    cbn; try reflexivity;
    destruct ((_ =? 200)%Z || (_ =? 208)%Z); reflexivity.
Qed.

(** Chunk by chunk the script does what the module does. *)
Lemma scriptChunk_uploadChunk (i : nat) (fuel : nat) :
  forall attempt st,
  scriptChunk E fuel total i attempt (trace st)
  = option_map (fun st' => (trace st', successCount st' =? S (successCount st)))
               (uploadChunk E fuel total i attempt st).
Proof.
  induction fuel as [|fuel IH]; intros attempt st; [reflexivity|].
  cbn [scriptChunk uploadChunk].
  destruct (tryChunk E i attempt) as [evs [err|status]].
  - destruct (MAX_RETRIES_PER_CHUNK <? attempt + 1).
    + cbn [option_map trace successCount].
      replace (successCount st =? S (successCount st)) with false
        by (symmetry; apply Nat.eqb_neq; lia).
      reflexivity.
    + match goal with
      | |- _ = option_map _ (uploadChunk E fuel total i (attempt + 1) ?s) =>
          exact (IH (attempt + 1) s)
      end.
  - cbn [option_map trace successCount]. now rewrite Nat.eqb_refl.
Qed.

(** What the script adds to the trace for one chunk. *)
Lemma scriptChunk_events (i : nat) (fuel : nat) :
  forall attempt tr tr' b,
  scriptChunk E fuel total i attempt tr = Some (tr', b) ->
  exists evs,
    tr' = tr ++ evs /\
    if b then existsb isGivingUp evs = false
    else exists pre err,
           evs = pre ++ [LogGivingUp i err] /\ existsb isGivingUp pre = false.
Proof.
  induction fuel as [|fuel IH]; intros attempt tr tr' b Hrun; [discriminate|].
  cbn [scriptChunk] in Hrun.
  pose proof (tryChunk_no_giving_up i attempt) as Hq.
  destruct (tryChunk E i attempt) as [evs0 [err|status]]; cbn [fst] in Hq.
  - destruct (MAX_RETRIES_PER_CHUNK <? attempt + 1).
    + injection Hrun as <- <-. exists (evs0 ++ [LogGivingUp i err]).
      split; [reflexivity|]. exists evs0, err. auto.
    + apply IH in Hrun. destruct Hrun as [evs [-> Hevs]].
      exists (evs0
              ++ [LogRetry (attempt + 1) i (RETRY_DELAY_MS_BASE * (attempt + 1)) err;
                  Sleep (RETRY_DELAY_MS_BASE * (attempt + 1))] ++ evs).
      split; [rewrite <- !app_assoc; reflexivity|].
      destruct b.
      * rewrite !existsb_app, Hq, Hevs. reflexivity.
      * destruct Hevs as [pre [err' [-> Hpre]]].
        exists (evs0
                ++ [LogRetry (attempt + 1) i (RETRY_DELAY_MS_BASE * (attempt + 1)) err;
                    Sleep (RETRY_DELAY_MS_BASE * (attempt + 1))] ++ pre), err'.
        split; [rewrite <- !app_assoc; reflexivity|].
        rewrite !existsb_app, Hq, Hpre. reflexivity.
  - injection Hrun as <- <-. exists (evs0 ++ [LogUploaded (i + 1) total status]).
    split; [reflexivity|]. rewrite existsb_app, Hq. reflexivity.
Qed.

Lemma scriptChunks_spec (fuel : nat) (indices : list nat) :
  S MAX_RETRIES_PER_CHUNK <= fuel ->
  forall st,
  exists st' tr b rest,
    forChunks E fuel total indices st = Some st' /\
    scriptChunks E fuel total indices (trace st) = Some (tr, b) /\
    trace st' = tr ++ rest /\
    b = forallb (chunkSucceeds E) indices /\
    (b = true -> rest = []) /\
    (b = false ->
     exists pre i err,
       tr = trace st ++ pre ++ [LogGivingUp i err] /\
       existsb isGivingUp pre = false /\
       In i indices /\ chunkSucceeds E i = false).
Proof.
  intros Hfuel. induction indices as [|i more IH]; intros st.
  - exists st, (trace st), true, []. cbn. rewrite app_nil_r.
    repeat split; try reflexivity. discriminate.
  - cbn [forChunks scriptChunks forallb].
    destruct (uploadChunk_spec E total i fuel 0 st) as [st1 [evs1 [k H1]]];
      [unfold MAX_RETRIES_PER_CHUNK; lia | lia |].
    destruct H1 as (Hrun & Htr & _ & _ & _ & Hres).
    fold (chunkSucceeds E i) in Hres.
    pose proof (scriptChunk_uploadChunk i fuel 0 st) as Hscript.
    rewrite Hrun in Hscript. cbn [option_map] in Hscript.
    rewrite Hrun, Hscript.
    pose proof (scriptChunk_events i fuel 0 (trace st) _ _ Hscript) as [evs [Hevs Hshape]].
    assert (Heq : evs = evs1).
    { rewrite Htr in Hevs. now apply app_inv_head in Hevs. }
    subst evs.
    destruct (chunkSucceeds E i) eqn:Hi.
    + destruct Hres as (Hsc & _). rewrite Hsc, Nat.eqb_refl in *.
      destruct (IH st1) as [st' [tr [b [rest [Hf [Hs [Htr' [Hb [Htrue Hfalse]]]]]]]]].
      exists st', tr, b, rest. cbn [andb].
      split; [exact Hf|]. split; [exact Hs|]. split; [exact Htr'|].
      split; [exact Hb|]. split; [exact Htrue|].
      intros Hbf. destruct (Hfalse Hbf) as [pre [j [err [Hpre [Hg [Hin Hj]]]]]].
      exists (evs1 ++ pre), j, err.
      split; [rewrite Hpre, Htr, <- !app_assoc; reflexivity|].
      split; [rewrite existsb_app, Hshape, Hg; reflexivity|].
      split; [now right | exact Hj].
    + destruct Hres as (_ & Hsc & _).
      replace (successCount st1 =? S (successCount st)) with false in *
        by (symmetry; apply Nat.eqb_neq; lia).
      destruct (forChunks_spec E total fuel more Hfuel st1)
        as [st' [rest [Hf [Htr' _]]]].
      exists st', (trace st1), false, rest. cbn [andb].
      split; [exact Hf|]. split; [reflexivity|]. split; [exact Htr'|].
      split; [reflexivity|]. split; [discriminate|].
      intros _. destruct Hshape as [pre [err [-> Hpre]]].
      exists pre, i, err. split; [exact Htr|]. split; [exact Hpre|].
      split; [now left | exact Hi].
Qed.

End ScriptAgainstModule.

(** X12.  On the same answers the script [reupload.cjs] does what
    [reuploadChunks] does up to the first chunk that spends its retries:
    its trace is a prefix of the module's, it completes exactly when the
    module returns, and otherwise it leaves with code 1 right after the
    first (and only) "Giving up" line, so that no later chunk is
    attempted. *)
Theorem reuploadScript_prefix (E : UploadEnv) (fuel total : nat) :
  S MAX_RETRIES_PER_CHUNK <= fuel ->
  existsSync E = true ->
  totalChunks E = Some total ->
  exists res tr code trc rest,
    reuploadChunks E fuel = Some (res, tr) /\
    reuploadScript E fuel = Some (code, trc) /\
    tr = trc ++ rest /\
    (code = ScriptCompleted <-> res = UploadReturn) /\
    (code <> ScriptCompleted ->
     code = ScriptExit1 /\
     exists pre i err,
       trc = pre ++ [LogGivingUp i err] /\
       existsb isGivingUp pre = false /\
       i < total /\ chunkSucceeds E i = false).
Proof.
  intros Hfuel Hfile Htotal. unfold reuploadChunks, reuploadScript.
  rewrite Hfile, Htotal. cbn [negb].
  destruct (scriptChunks_spec E total fuel (seq 0 total) Hfuel
              {| successCount := 0; failedChunks := [];
                 trace := [LogUploading total] |})
    as [st [trc [b [rest [Hf [Hs [Htr [Hb [Htrue Hfalse]]]]]]]]].
  cbn [trace] in Hs, Hfalse. rewrite Hf, Hs.
  destruct (forChunks_spec E total fuel (seq 0 total) Hfuel
              {| successCount := 0; failedChunks := [];
                 trace := [LogUploading total] |})
    as [st2 [evs [Hf2 [_ [Hsc _]]]]].
  rewrite Hf in Hf2. injection Hf2 as <-. cbn [successCount Nat.add] in Hsc.
  assert (Hall : successCount st = total <-> b = true).
  { rewrite Hsc, Hb. rewrite <- (length_seq total 0) at 2.
    rewrite filter_all_length, forallb_forall. reflexivity. }
  destruct b.
  - assert (Hst : successCount st = total) by now apply Hall.
    rewrite Hst, Nat.eqb_refl.
    exists UploadReturn, (trace st ++ [LogAllUploaded total]), ScriptCompleted,
      trc, (rest ++ [LogAllUploaded total]).
    split; [reflexivity|]. split; [reflexivity|].
    split; [rewrite Htr, app_assoc; reflexivity|].
    split; [tauto|]. intros H. contradiction.
  - assert (Hst : successCount st <> total).
    { intros H. apply Hall in H. discriminate H. }
    apply Nat.eqb_neq in Hst. rewrite Hst.
    eexists. eexists. exists ScriptExit1, trc. eexists.
    split; [reflexivity|]. split; [reflexivity|].
    split; [rewrite Htr, <- app_assoc; reflexivity|].
    split; [split; discriminate|].
    intros _. split; [reflexivity|].
    destruct (Hfalse eq_refl) as [pre [i [err [Hpre [Hg [Hin Hi]]]]]].
    exists ([LogUploading total] ++ pre), i, err.
    split; [rewrite Hpre, <- app_assoc; reflexivity|].
    split; [rewrite existsb_app, Hg; reflexivity|].
    split; [apply in_seq in Hin; lia | exact Hi].
Qed.

Lemma reuploadScript_prefix_witness :
  reuploadScript envChunk2Fails 6
  = Some (ScriptExit1,
          [LogUploading 4; Post 0; LogUploaded 1 4 200;
           Post 1; LogUploaded 2 4 200;
           Post 2; LogRetry 1 2 750 (UploadFailed 2 500); Sleep 750;
           Post 2; LogRetry 2 2 1500 (UploadFailed 2 500); Sleep 1500;
           Post 2; LogRetry 3 2 2250 (UploadFailed 2 500); Sleep 2250;
           Post 2; LogRetry 4 2 3000 (UploadFailed 2 500); Sleep 3000;
           Post 2; LogRetry 5 2 3750 (UploadFailed 2 500); Sleep 3750;
           Post 2; LogGivingUp 2 (UploadFailed 2 500)]).
Proof.
  destruct (reuploadScript_prefix envChunk2Fails 6 4 (le_n 6) eq_refl eq_refl)
    as [res [tr [code [trc [rest H]]]]].
  vm_compute. reflexivity.
Defined.

Lemma reuploadChunks_first_try_witness :
  exists tr,
    reuploadChunks envAlreadyPresent 1 = Some (UploadReturn, tr) /\
    posts tr = [0; 1; 2] /\ sleeps tr = [] /\ retries tr = [].
Proof.
  apply (reuploadChunks_first_try envAlreadyPresent 0 3 eq_refl eq_refl).
  intros i _. reflexivity.
Defined.

(** * Peer discovery *)


Lemma sliceTo_all (l : list jsstring) (maxPeers : Z) :
  length l <= Z.to_nat maxPeers -> sliceTo l maxPeers = l.
Proof.
  intros Hlen. unfold sliceTo.
  destruct (Z.ltb_spec maxPeers 0) as [Hneg|Hpos].
  - destruct l; [now rewrite firstn_nil | cbn [length] in Hlen; lia].
  - apply firstn_all2. lia.
Qed.

Section DiscoverProofs.

Variable get_peers : nat -> jsstring -> PeersReply.
Variable maxPeers : Z.



(** A network on which every [/peers] request fails. *)
Lemma discoverLoop_rejected (queue : list jsstring) :
  (forall clk p, get_peers clk p = PeersRejected) ->
  forall fuel out clk,
  length out <= Z.to_nat maxPeers ->
  length queue <= fuel ->
  discoverLoop get_peers maxPeers fuel (rev out) queue out clk
  = Some (firstn (Z.to_nat maxPeers)
                 (out ++ dedupe (rev out) (normaliseAll queue))).
Proof.
  intros Hrej. induction queue as [|p queue' IH]; intros fuel out clk Hlen Hfuel.
  - destruct fuel; cbn [discoverLoop normaliseAll dedupe];
      rewrite sliceTo_all, app_nil_r by exact Hlen;
      now rewrite firstn_all2.
  - assert (Hfull : (maxPeers <= Z.of_nat (length out))%Z ->
                    Some (sliceTo out maxPeers)
                    = Some (firstn (Z.to_nat maxPeers)
                              (out ++ dedupe (rev out) (normaliseAll (p :: queue'))))).
    { intros Hge. rewrite sliceTo_all by exact Hlen. f_equal.
      destruct (Z.ltb_spec maxPeers 0) as [Hneg|Hpos].
      - replace (Z.to_nat maxPeers) with 0 in * by lia.
        destruct out; [reflexivity | cbn [length] in Hlen; lia].
      - replace (Z.to_nat maxPeers) with (length out + 0) by lia.
        rewrite firstn_app_2. cbn [firstn]. now rewrite app_nil_r. }
    destruct fuel as [|fuel]; cbn [discoverLoop];
      destruct (Z.ltb_spec (Z.of_nat (length out)) maxPeers) as [Hroom|Hge];
      try (now apply Hfull); [cbn [length] in Hfuel; lia|].
    cbn [length] in Hfuel. cbn [normaliseAll].
    destruct (normalisePeer p) as [norm|]; [|apply IH; [exact Hlen | lia]].
    cbn [dedupe].
    destruct (existsb (jsstring_eqb norm) (rev out)) eqn:Hseen;
      [apply IH; [exact Hlen | lia]|].
    rewrite Hrej.
    assert (Hrev : norm :: rev out = rev (out ++ [norm]))
      by now rewrite rev_app_distr.
    rewrite Hrev, IH.
    + rewrite <- app_assoc. reflexivity.
    + rewrite length_app. cbn [length]. lia.
    + lia.
Qed.

End DiscoverProofs.



(** X14.  When no peer answers [/peers], [discoverPeers] falls back on the
    seeds alone: it returns their normalised forms, without the duplicates
    and in the order of their first occurrence, cut to [maxPeers]. *)
Theorem discoverPeers_no_discovery (get_peers : nat -> jsstring -> PeersReply)
    (maxPeers : Z) (seedPeers : list jsstring) (fuel : nat) :
  (forall clk p, get_peers clk p = PeersRejected) ->
  length seedPeers <= fuel ->
  discoverPeers get_peers maxPeers fuel seedPeers
  = Some (firstn (Z.to_nat maxPeers) (dedupe [] (normaliseAll seedPeers))).
Proof.
  intros Hrej Hfuel.
  exact (discoverLoop_rejected get_peers maxPeers seedPeers Hrej fuel [] 0
           ltac:(cbn [length]; lia) Hfuel).
Qed.

Lemma discoverPeers_no_discovery_witness :
  discoverPeers (fun _ _ => PeersRejected) 2 4
    [lit "a:1984"; lit "b"; lit "a:1984/"; lit "c"]
  = Some [lit "http://a:1984"; lit "http://b"].
Proof.
  apply (discoverPeers_no_discovery (fun _ _ => PeersRejected) 2
           [lit "a:1984"; lit "b"; lit "a:1984/"; lit "c"] 4).
  - reflexivity.
  - cbn [length]. lia.
Defined.
